(** * Bron-Kerbosch maximal clique enumeration (bron_kerbosch.cc)

    A shallow embedding of [class Graph] and of its search
    [find_max_cliques] / [bron_kerbosch], with the properties of the
    repository's specification proved about it.

    Conventions of the embedding:
    - [int] is [Z]; no arithmetic of the program can overflow (loop
      counters and degree counts are bounded by [num_vertices]);
    - [vector<vector<bool>>] is [list (list bool)], indexed from 0;
    - [set<int>] is [gset Z]; a range-for over a [set<int>] visits the
      elements in increasing order, which is [set_elems];
    - [vector<set<int>>] is [list (gset Z)], [push_back] appends;
    - member functions receive the object explicitly; the recursive search
      threads the object and the result vector as its state;
    - the recursion of [bron_kerbosch] is bounded by a fuel argument and
      shown to need no more than [num_vertices + 1] of it. *)

From Stdlib Require Import ZArith Lia.
From stdpp Require Import sorting numbers gmap list.

Local Open Scope Z_scope.

(** ** The graph object *)

Record Graph := mkGraph {
  num_vertices : Z;
  adj_matrix : list (list bool)
}.

(** [adj_matrix[u][v]]. In C++ an index outside the vectors is undefined;
    the embedding reads [false] there. Every read the search performs is
    in range (its vertex sets only hold indices below [num_vertices]). *)
Definition vec_at {A} (d : A) (l : list A) (i : Z) : A :=
  if decide (0 ≤ i) then default d (l !! Z.to_nat i) else d.

Definition is_neighbor (g : Graph) (u v : Z) : bool :=
  vec_at false (vec_at [] (adj_matrix g) u) v.

(** [adj_matrix[u][v] = true]. *)
Definition set_entry (m : list (list bool)) (u v : Z) : list (list bool) :=
  <[Z.to_nat u := <[Z.to_nat v := true]> (vec_at [] m u)]> m.

(** [Graph::add_edge] *)
Definition add_edge (g : Graph) (u v : Z) : Graph :=
  if decide (0 ≤ u ∧ u < num_vertices g ∧ 0 ≤ v ∧ v < num_vertices g) then
    mkGraph (num_vertices g) (set_entry (set_entry (adj_matrix g) u v) v u)
  else g.

(** [Graph::degree]: the counting loop over [i = 0 .. num_vertices - 1]. *)
Definition degree (g : Graph) (u : Z) : Z :=
  fold_left (λ count i, if is_neighbor g u i then count + 1 else count)
            (seqZ 0 (num_vertices g)) 0.

(** [Graph::get_neighbors]: the indices pushed, in increasing order. *)
Definition get_neighbors (g : Graph) (v : Z) : list Z :=
  filter (λ i, is_neighbor g v i = true) (seqZ 0 (num_vertices g)).

(** ** Iterating a [set<int>] *)

Definition set_elems (s : gset Z) : list Z := merge_sort Z.le (elements s).

(** ** The search *)

(** Pivot selection (lines 69-74): start from [*P.begin()], then scan [P]. *)
Definition pivot_step (g : Graph) (X : gset Z) (u v : Z) : Z :=
  if decide (v ∈ X) then u
  else if decide (degree g v > degree g u) then v else u.

Definition choose_pivot (g : Graph) (P X : gset Z) : Z :=
  fold_left (pivot_step g X) (set_elems P) (hd 0 (set_elems P)).

(** [P_minus_N] (lines 75-79). *)
Definition P_minus_N (g : Graph) (P : gset Z) (u : Z) : gset Z :=
  fold_left (λ acc v, if is_neighbor g v u then acc else {[v]} ∪ acc)
            (set_elems P) ∅.

(** [new_P], [new_X] (lines 84-92). *)
Definition restrict_step (P X : gset Z) (acc : gset Z * gset Z) (nb : Z)
  : gset Z * gset Z :=
  let new_P := if decide (nb ∈ P) then {[nb]} ∪ acc.1 else acc.1 in
  let new_X := if decide (nb ∈ X) then {[nb]} ∪ acc.2 else acc.2 in
  (new_P, new_X).

Definition restrict (g : Graph) (v : Z) (P X : gset Z) : gset Z * gset Z :=
  fold_left (restrict_step P X) (get_neighbors g v) (∅, ∅).

(** The state threaded through the search: the object and [cliques]. *)
Definition SearchState : Type := Graph * list (gset Z).

(** The loop over [P_minus_N] (lines 81-97). [call] is the recursive call;
    [P] and [X] are the frame's own sets, updated after each call. The sets
    [new_R], [new_P], [new_X] handed to the call are locals of the
    iteration that nothing reads after the call. *)
Fixpoint branch_loop
    (call : gset Z → gset Z → gset Z → SearchState → option SearchState)
    (R : gset Z) (vs : list Z) (P X : gset Z) (st : SearchState)
  : option SearchState :=
  match vs with
  | [] => Some st
  | v :: vs' =>
      let new_R := {[v]} ∪ R in
      let '(new_P, new_X) := restrict st.1 v P X in
      match call new_R new_P new_X st with
      | None => None
      | Some st' => branch_loop call R vs' (P ∖ {[v]}) (X ∪ {[v]}) st'
      end
  end.

(** [Graph::bron_kerbosch]; [None] only when the fuel runs out. *)
Fixpoint bron_kerbosch (fuel : nat) (R P X : gset Z) (st : SearchState)
  : option SearchState :=
  match fuel with
  | O => None
  | S fuel' =>
      if bool_decide (P = ∅) && bool_decide (X = ∅) then
        Some (st.1, st.2 ++ [R])
      else if bool_decide (P = ∅) then Some st
      else
        let u := choose_pivot st.1 P X in
        branch_loop (bron_kerbosch fuel') R
                    (set_elems (P_minus_N st.1 P u)) P X st
  end.

(** [Graph::find_max_cliques]: the returned vector and the object after
    the call. *)
Definition all_vertices (g : Graph) : gset Z :=
  fold_left (λ P i, {[i]} ∪ P) (seqZ 0 (num_vertices g)) ∅.

Definition find_max_cliques (g : Graph) : option (list (gset Z) * Graph) :=
  let cliques : list (gset Z) := [] in
  let R : gset Z := ∅ in
  let P := all_vertices g in
  let X : gset Z := ∅ in
  if decide (num_vertices g > 0) then
    match bron_kerbosch (S (Z.to_nat (num_vertices g))) R P X (g, cliques) with
    | Some (g', cliques') => Some (cliques', g')
    | None => None
    end
  else Some (cliques, g).

(** ** The search with its call history

    The same two functions with one ghost component added to the state:
    the list of the argument triples of every activation, in call order.
    Nothing reads it; [bron_kerbosch_traced_erase] below shows that
    dropping it gives [bron_kerbosch] back. *)

Record Frame := mkFrame { frame_R : gset Z; frame_P : gset Z; frame_X : gset Z }.

Definition TracedState : Type := SearchState * list Frame.

Fixpoint branch_loop_traced
    (call : gset Z → gset Z → gset Z → TracedState → option TracedState)
    (R : gset Z) (vs : list Z) (P X : gset Z) (ts : TracedState)
  : option TracedState :=
  match vs with
  | [] => Some ts
  | v :: vs' =>
      let new_R := {[v]} ∪ R in
      let '(new_P, new_X) := restrict ts.1.1 v P X in
      match call new_R new_P new_X ts with
      | None => None
      | Some ts' => branch_loop_traced call R vs' (P ∖ {[v]}) (X ∪ {[v]}) ts'
      end
  end.

Fixpoint bron_kerbosch_traced (fuel : nat) (R P X : gset Z) (ts : TracedState)
  : option TracedState :=
  match fuel with
  | O => None
  | S fuel' =>
      let st := ts.1 in
      let history := ts.2 ++ [mkFrame R P X] in
      if bool_decide (P = ∅) && bool_decide (X = ∅) then
        Some ((st.1, st.2 ++ [R]), history)
      else if bool_decide (P = ∅) then Some (st, history)
      else
        let u := choose_pivot st.1 P X in
        branch_loop_traced (bron_kerbosch_traced fuel') R
                           (set_elems (P_minus_N st.1 P u)) P X (st, history)
  end.

Definition find_max_cliques_traced (g : Graph)
  : option (list (gset Z) * Graph * list Frame) :=
  if decide (num_vertices g > 0) then
    match bron_kerbosch_traced (S (Z.to_nat (num_vertices g)))
                               ∅ (all_vertices g) ∅ ((g, []), []) with
    | Some ((g', cliques'), history) => Some (cliques', g', history)
    | None => None
    end
  else Some ([], g, []).

(** The frames of a history that [bron_kerbosch] answers by recording. *)
Definition records (f : Frame) : bool :=
  bool_decide (frame_P f = ∅) && bool_decide (frame_X f = ∅).

(** ** Construction

    [Graph(int n)] passes [n] to the two [std::vector] fill constructors,
    whose count parameter is a [size_t]: the [int] is converted modulo
    [2 ^ size_t_bits]. A fill constructor either obtains storage for
    [count] elements or throws ([std::length_error], [std::bad_alloc]);
    whether storage is obtained is up to the runtime, except that no
    allocator hands out more bytes than a [size_t] can count. A row
    ([vector<bool>]) occupies at least two bytes. *)

Class Runtime := {
  size_t_bits : Z;
  can_allocate_bits : Z → bool;
  can_allocate_rows : Z → bool;
  size_t_bits_int : 32 ≤ size_t_bits;
  rows_limit : ∀ count, can_allocate_rows count = true → 2 * count < 2 ^ size_t_bits
}.

Definition to_size_t `{Runtime} (n : Z) : Z := n mod 2 ^ size_t_bits.

(** [std::vector<A>(count, x)]; [None] when the constructor throws. *)
Definition vector_fill {A} (can_allocate : Z → bool) (count : Z) (x : A)
  : option (list A) :=
  if can_allocate count then Some (replicate (Z.to_nat count) x) else None.

Inductive Construction := Constructed (g : Graph) | Thrown.

(** [Graph::Graph]: the row [vector<bool>(n, false)] is built first, then
    the matrix of [n] copies of it. *)
Definition Graph_ctor `{Runtime} (n : Z) : Construction :=
  match vector_fill can_allocate_bits (to_size_t n) false with
  | None => Thrown
  | Some row =>
      match vector_fill can_allocate_rows (to_size_t n) row with
      | None => Thrown
      | Some adj => Constructed (mkGraph n adj)
      end
  end.

(** The object a successful [Graph(n)] yields, [0 ≤ n]. *)
Definition Graph_new (n : Z) : Graph :=
  mkGraph n (replicate (Z.to_nat n) (replicate (Z.to_nat n) false)).

(** A sequence of [add_edge] calls. *)
Definition add_edges (es : list (Z * Z)) (g : Graph) : Graph :=
  fold_left (λ g e, add_edge g e.1 e.2) es g.

(** ** Vocabulary of the specification *)

Definition vertex (g : Graph) (v : Z) : Prop := 0 ≤ v < num_vertices g.

Definition adjacent (g : Graph) (u v : Z) : Prop := is_neighbor g u v = true.

Definition vertex_set (g : Graph) (S : gset Z) : Prop :=
  ∀ v, v ∈ S → vertex g v.

Definition pairwise_adjacent (g : Graph) (S : gset Z) : Prop :=
  ∀ u v, u ∈ S → v ∈ S → u ≠ v → adjacent g u v.

(** A clique is a non-empty set of vertices, pairwise adjacent; the empty
    set is not counted as one (the expected result for the graph without
    vertices is the empty collection, test case 1). *)
Definition clique (g : Graph) (C : gset Z) : Prop :=
  C ≠ ∅ ∧ vertex_set g C ∧ pairwise_adjacent g C.

Definition maximal (g : Graph) (C : gset Z) : Prop :=
  ∀ S, vertex_set g S → pairwise_adjacent g S → ¬ C ⊂ S.

Definition maximal_clique (g : Graph) (C : gset Z) : Prop :=
  clique g C ∧ maximal g C.

(** Shape of the adjacency matrix, symmetry, absence of self-loops. *)
Definition well_formed (g : Graph) : Prop :=
  0 ≤ num_vertices g ∧
  length (adj_matrix g) = Z.to_nat (num_vertices g) ∧
  Forall (λ row, length row = Z.to_nat (num_vertices g)) (adj_matrix g).

Definition symmetric (g : Graph) : Prop :=
  ∀ u v, is_neighbor g u v = is_neighbor g v u.

Definition loop_free (g : Graph) : Prop :=
  ∀ v, is_neighbor g v v = false.

(** The invariant of the search state as the specification words it. *)
Definition state_invariant (g : Graph) (R P X : gset Z) : Prop :=
  (∀ w r, w ∈ P ∪ X → r ∈ R → adjacent g w r) ∧
  P ## X ∧
  pairwise_adjacent g R.

(** What the correctness proof carries in addition: [P ∪ X] is exactly the
    set of vertices adjacent to all of [R]. *)
Definition common_neighbor (g : Graph) (R : gset Z) (w : Z) : Prop :=
  vertex g w ∧ ∀ r, r ∈ R → adjacent g r w.

Definition search_invariant (g : Graph) (R P X : gset Z) : Prop :=
  vertex_set g R ∧ pairwise_adjacent g R ∧ P ## X ∧
  ∀ w, w ∈ P ∪ X ↔ common_neighbor g R w.

Definition frame_invariant (g : Graph) (f : Frame) : Prop :=
  search_invariant g (frame_R f) (frame_P f) (frame_X f).

(** The cliques one activation is responsible for. *)
Definition target (g : Graph) (R P C : gset Z) : Prop :=
  maximal_clique g C ∧ R ⊆ C ∧ C ⊆ R ∪ P.

(** What a recursive call of the search is assumed to do, and
    [bron_kerbosch] does: started on a state that satisfies the invariant
    it appends exactly the cliques of [target], leaving the object alone. *)
Definition call_spec (g : Graph)
    (call : gset Z → gset Z → gset Z → SearchState → option SearchState) : Prop :=
  ∀ R P X cl st',
    search_invariant g R P X →
    call R P X (g, cl) = Some st' →
    ∃ out, st' = (g, cl ++ out) ∧
      (∀ C, C ∈ out → target g R P C) ∧
      (loop_free g → NoDup out ∧ ∀ C, target g R P C → C ∈ out).

(** The contract of [find_max_cliques] on a graph. *)
Definition lists_maximal_cliques (g : Graph) : Prop :=
  ∃ cliques g',
    find_max_cliques g = Some (cliques, g') ∧
    NoDup cliques ∧
    ∀ C, C ∈ cliques ↔ maximal_clique g C.

(** [N(v)]: the vertices [get_neighbors] returns for [v], as a set. *)
Definition neighborhood (g : Graph) (v : Z) : gset Z :=
  list_to_set (get_neighbors g v).

(** The cliques a history accounts for: the [R] of its recording frames. *)
Definition recorded (history : list Frame) : list (gset Z) :=
  frame_R <$> filter (λ f, records f = true) history.

(** A 64-bit runtime that hands out storage for up to [2 ^ 32] elements,
    used to exercise [Graph_ctor]. *)
Definition runtime64 : Runtime := {|
  size_t_bits := 64;
  can_allocate_bits := λ count, bool_decide (count ≤ 2 ^ 32);
  can_allocate_rows := λ count, bool_decide (count ≤ 2 ^ 32);
  size_t_bits_int := ltac:(lia);
  rows_limit := ltac:(intros count H; apply bool_decide_eq_true_1 in H; lia)
|}.

(** ** The calls of one activation, as the specification describes them

    Step 2.e of the algorithm: for each [v] of the branching list, in
    order, one recursive call on [R ∪ {v}], [P ∩ N(v)], [X ∩ N(v)], after
    which [v] moves from [P] to [X]. [branch_frames] lists the argument
    triples of these calls; it is what the loop of the code is compared
    with. *)
Fixpoint branch_frames (g : Graph) (R : gset Z) (vs : list Z) (P X : gset Z)
  : list Frame :=
  match vs with
  | [] => []
  | v :: vs' =>
      mkFrame ({[v]} ∪ R) (P ∩ neighborhood g v) (X ∩ neighborhood g v)
      :: branch_frames g R vs' (P ∖ {[v]}) (X ∪ {[v]})
  end.

(** The calls of an activation with non-empty [P]: one per vertex of
    [P ∖ N(u)], [u] the pivot, in increasing order. *)
Definition child_frames (g : Graph) (f : Frame) : list Frame :=
  branch_frames g (frame_R f)
    (set_elems (P_minus_N g (frame_P f) (choose_pivot g (frame_P f) (frame_X f))))
    (frame_P f) (frame_X f).

(** [activation g f h]: [h] is the history of an activation entered with
    the sets of [f]: [f] itself, then, when its [P] is not empty, the
    histories of the activations of [child_frames g f], one after the
    other; an activation with empty [P] calls nothing. *)
Inductive activation (g : Graph) : Frame → list Frame → Prop :=
  | activation_leaf f :
      frame_P f = ∅ → activation g f [f]
  | activation_node f hs :
      frame_P f ≠ ∅ →
      Forall2 (activation g) (child_frames g f) hs →
      activation g f (f :: concat hs).

(** A stand-in for the recursive call that does nothing but append its
    three arguments to the vector: run under [branch_loop] it shows which
    calls the loop makes. *)
Definition record_arguments (R P X : gset Z) (st : SearchState)
  : option SearchState :=
  Some (st.1, st.2 ++ [R; P; X]).

Definition frame_sets (f : Frame) : list (gset Z) :=
  [frame_R f; frame_P f; frame_X f].

(** ** The test driver

    [run_test] sorts the expected and the actual vector and asserts that
    they are equal. [std::sort] orders [set<int>] values by [operator<],
    the lexicographic comparison of their increasing element sequences;
    a set is represented here by that sequence. *)
Fixpoint lex_leb (a b : list Z) : bool :=
  match a, b with
  | [], _ => true
  | _ :: _, [] => false
  | x :: a', y :: b' =>
      if bool_decide (x < y) then true
      else if bool_decide (y < x) then false
      else lex_leb a' b'
  end.

Definition sort_cliques (cliques : list (gset Z)) : list (list Z) :=
  @merge_sort _ (λ a b, lex_leb a b = true) (λ a b, decide (lex_leb a b = true))
              (set_elems <$> cliques).

(** The assertion of [run_test]; [false] stands for a failed [assert]. *)
Definition run_test (g : Graph) (expected_cliques : list (gset Z)) : bool :=
  match find_max_cliques g with
  | Some (actual_cliques, _) =>
      bool_decide (sort_cliques actual_cliques = sort_cliques expected_cliques)
  | None => false
  end.

(** The fifteen cases of [test_find_max_cliques]: vertex count, the
    [add_edge] calls in order, the expected cliques. *)
Definition test_cases : list (Z * list (Z * Z) * list (list Z)) :=
  [ (0, [], []);
    (1, [], [[0]]);
    (2, [], [[0]; [1]]);
    (2, [(0, 1)], [[0; 1]]);
    (3, [(0, 1); (1, 2); (2, 0)], [[0; 1; 2]]);
    (3, [(0, 1); (1, 2)], [[0; 1]; [1; 2]]);
    (4, [(0, 1); (1, 2); (2, 3); (3, 0)], [[0; 1]; [1; 2]; [2; 3]; [0; 3]]);
    (4, [(0, 1); (0, 2); (0, 3); (1, 2); (1, 3); (2, 3)], [[0; 1; 2; 3]]);
    (4, [(0, 1); (1, 2); (2, 3); (3, 0); (0, 2)], [[0; 1; 2]; [0; 2; 3]]);
    (6, [(0, 1); (1, 2); (2, 0); (3, 4); (4, 5); (5, 3)], [[0; 1; 2]; [3; 4; 5]]);
    (5, [(0, 1); (1, 2); (2, 3); (3, 4); (4, 0)],
        [[0; 1]; [1; 2]; [2; 3]; [3; 4]; [0; 4]]);
    (5, [(0, 1); (1, 2); (2, 3); (3, 0); (0, 4); (1, 4)],
        [[0; 1; 4]; [1; 2]; [2; 3]; [0; 3]]);
    (6, [(0, 1); (0, 4); (1, 2); (1, 4); (2, 3); (3, 4); (3, 5)],
        [[0; 1; 4]; [1; 2]; [2; 3]; [3; 4]; [3; 5]]);
    (4, [(0, 1); (1, 2); (0, 2)], [[0; 1; 2]; [3]]);
    (6, [(0, 3); (0, 4); (0, 5); (1, 3); (1, 4); (1, 5); (2, 3); (2, 4); (2, 5)],
        [[0; 3]; [0; 4]; [0; 5]; [1; 3]; [1; 4]; [1; 5]; [2; 3]; [2; 4]; [2; 5]]) ].

(** [test_find_max_cliques]: every case through [run_test]. *)
Definition test_find_max_cliques : bool :=
  forallb (λ c, run_test (add_edges c.1.2 (Graph_new c.1.1)) (list_to_set <$> c.2))
          test_cases.

(** * Properties *)

(** ** Iteration order of a set *)

Lemma elem_of_set_elems (s : gset Z) v : v ∈ set_elems s ↔ v ∈ s.
Proof.
  unfold set_elems. rewrite merge_sort_Permutation. apply elem_of_elements.
Qed.

Lemma NoDup_set_elems (s : gset Z) : NoDup (set_elems s).
Proof.
  unfold set_elems. rewrite merge_sort_Permutation. apply NoDup_elements.
Qed.

Lemma Sorted_set_elems (s : gset Z) : Sorted Z.le (set_elems s).
Proof. apply (Sorted_merge_sort Z.le). Qed.

Lemma set_elems_nil (s : gset Z) : set_elems s = [] → s = ∅.
Proof.
  intros Hnil. apply set_eq. intros v.
  rewrite <- elem_of_set_elems, Hnil. set_solver.
Qed.

Lemma set_elems_hd (s : gset Z) : s ≠ ∅ → hd 0 (set_elems s) ∈ s.
Proof.
  intros Hne. destruct (set_elems s) as [|v vs] eqn:E.
  - by apply set_elems_nil in E.
  - apply elem_of_set_elems. rewrite E. simpl. set_solver.
Qed.

(** ** The loops that build sets *)

Lemma elem_of_all_vertices g v : v ∈ all_vertices g ↔ vertex g v.
Proof.
  unfold all_vertices, vertex.
  assert (Hfold : ∀ l (acc : gset Z),
    v ∈ fold_left (λ P i, {[i]} ∪ P) l acc ↔ v ∈ acc ∨ v ∈ l).
  { induction l as [|i l IH]; intros acc; simpl.
    - set_solver.
    - rewrite IH. set_solver. }
  rewrite Hfold, elem_of_seqZ. set_solver by lia.
Qed.

Lemma elem_of_get_neighbors g v w :
  w ∈ get_neighbors g v ↔ vertex g w ∧ adjacent g v w.
Proof.
  unfold get_neighbors, vertex, adjacent.
  rewrite list_elem_of_filter, elem_of_seqZ. intuition lia.
Qed.

Lemma elem_of_P_minus_N g P u v :
  v ∈ P_minus_N g P u ↔ v ∈ P ∧ is_neighbor g v u = false.
Proof.
  unfold P_minus_N.
  assert (Hfold : ∀ l (acc : gset Z),
    v ∈ fold_left (λ acc v, if is_neighbor g v u then acc else {[v]} ∪ acc) l acc
    ↔ v ∈ acc ∨ (v ∈ l ∧ is_neighbor g v u = false)).
  { induction l as [|x l IH]; intros acc; simpl.
    - set_solver.
    - rewrite IH. destruct (is_neighbor g x u) eqn:E.
      + rewrite elem_of_cons. intuition congruence.
      + rewrite elem_of_union, elem_of_singleton, elem_of_cons.
        intuition congruence. }
  rewrite Hfold, elem_of_set_elems, elem_of_empty. tauto.
Qed.

Lemma restrict_fold P X l acc w :
  (w ∈ (fold_left (restrict_step P X) l acc).1 ↔ w ∈ acc.1 ∨ (w ∈ l ∧ w ∈ P)) ∧
  (w ∈ (fold_left (restrict_step P X) l acc).2 ↔ w ∈ acc.2 ∨ (w ∈ l ∧ w ∈ X)).
Proof.
  revert acc. induction l as [|x l IH]; intros acc; simpl.
  - set_solver.
  - destruct (IH (restrict_step P X acc x)) as [IH1 IH2].
    rewrite IH1, IH2. unfold restrict_step. simpl.
    repeat case_decide; set_solver.
Qed.

Lemma elem_of_restrict_P g v P X w :
  w ∈ (restrict g v P X).1 ↔ w ∈ P ∧ vertex g w ∧ adjacent g v w.
Proof.
  unfold restrict.
  destruct (restrict_fold P X (get_neighbors g v) (∅, ∅) w) as [-> _].
  rewrite elem_of_get_neighbors. set_solver.
Qed.

Lemma elem_of_restrict_X g v P X w :
  w ∈ (restrict g v P X).2 ↔ w ∈ X ∧ vertex g w ∧ adjacent g v w.
Proof.
  unfold restrict.
  destruct (restrict_fold P X (get_neighbors g v) (∅, ∅) w) as [_ ->].
  rewrite elem_of_get_neighbors. set_solver.
Qed.

(** ** Pivot selection *)

Lemma pivot_step_spec g X u v :
  (pivot_step g X u v = u ∨ (pivot_step g X u v = v ∧ v ∉ X)) ∧
  degree g u ≤ degree g (pivot_step g X u v) ∧
  (v ∉ X → degree g v ≤ degree g (pivot_step g X u v)).
Proof. unfold pivot_step. repeat case_decide; intuition lia. Qed.

Lemma pivot_fold g X l u0 :
  let u := fold_left (pivot_step g X) l u0 in
  (u = u0 ∨ (u ∈ l ∧ u ∉ X)) ∧
  degree g u0 ≤ degree g u ∧
  ∀ v, v ∈ l → v ∉ X → degree g v ≤ degree g u.
Proof.
  revert u0. induction l as [|x l IH]; intros u0; simpl.
  - split; [by left|]. split; [lia|]. intros v Hv. by apply elem_of_nil in Hv.
  - destruct (IH (pivot_step g X u0 x)) as (Hwho & Hge & Hmax).
    destruct (pivot_step_spec g X u0 x) as (Hstep & Hge0 & Hx).
    split; [|split].
    + destruct Hwho as [Hwho|[? ?]]; [|right; split; [by apply elem_of_cons; right|done]].
      rewrite Hwho. destruct Hstep as [?|[-> ?]]; [by left|].
      right. split; [apply elem_of_cons; by left|done].
    + lia.
    + intros v [->|Hv]%elem_of_cons HvX; [|by apply Hmax].
      specialize (Hx HvX). lia.
Qed.

Lemma choose_pivot_in g P X : P ≠ ∅ → choose_pivot g P X ∈ P.
Proof.
  intros Hne. unfold choose_pivot.
  destruct (pivot_fold g X (set_elems P) (hd 0 (set_elems P))) as ([->|[Hin _]] & _).
  - by apply set_elems_hd.
  - by apply elem_of_set_elems.
Qed.

Lemma choose_pivot_max g P X v :
  v ∈ P → v ∉ X → degree g v ≤ degree g (choose_pivot g P X).
Proof.
  intros Hv HX. unfold choose_pivot.
  destruct (pivot_fold g X (set_elems P) (hd 0 (set_elems P))) as (_ & _ & Hmax).
  apply Hmax; [by apply elem_of_set_elems|done].
Qed.

(** ** The search leaves the object alone *)

Lemma branch_loop_graph call R vs :
  (∀ R' P' X' st st', call R' P' X' st = Some st' → st'.1 = st.1) →
  ∀ P X st st', branch_loop call R vs P X st = Some st' → st'.1 = st.1.
Proof.
  intros Hcall. induction vs as [|v vs IH]; intros P X st st'; simpl.
  - by intros [= ->].
  - destruct (restrict st.1 v P X) as [new_P new_X].
    destruct (call _ _ _ st) as [st1|] eqn:E; [|done].
    intros Hloop. apply IH in Hloop. apply Hcall in E. congruence.
Qed.

Lemma bron_kerbosch_graph fuel R P X st st' :
  bron_kerbosch fuel R P X st = Some st' → st'.1 = st.1.
Proof.
  revert R P X st st'. induction fuel as [|fuel IH]; intros R P X st st'; simpl.
  - done.
  - destruct (bool_decide (P = ∅) && bool_decide (X = ∅)); [by intros [= <-]|].
    destruct (bool_decide (P = ∅)); [by intros [= <-]|].
    apply branch_loop_graph. exact IH.
Qed.

(** ** Termination *)

Lemma restrict_loses_pivot g P0 P X u v :
  u ∈ P0 → P ⊆ P0 → v ∈ P_minus_N g P0 u →
  (size (restrict g v P X).1 < size P0)%nat.
Proof.
  intros Hu Hsub [_ Hv]%elem_of_P_minus_N.
  apply subset_size. apply strict_spec_alt. split.
  - intros w [Hw _]%elem_of_restrict_P. auto.
  - intros Heq. assert (Hin : u ∈ (restrict g v P X).1) by (rewrite Heq; done).
    apply elem_of_restrict_P in Hin as (_ & _ & Hadj).
    unfold adjacent in Hadj. congruence.
Qed.

Lemma branch_loop_total call g R P0 u (bound : nat) vs :
  (∀ R' P' X' st, (size P' < bound)%nat → st.1 = g →
     ∃ st', call R' P' X' st = Some st' ∧ st'.1 = g) →
  u ∈ P0 → (size P0 ≤ bound)%nat →
  ∀ P X st, P ⊆ P0 → (∀ v, v ∈ vs → v ∈ P_minus_N g P0 u) → st.1 = g →
    ∃ st', branch_loop call R vs P X st = Some st' ∧ st'.1 = g.
Proof.
  intros Hcall Hu Hbound. induction vs as [|v vs IH]; intros P X st Hsub Hvs Hg; simpl.
  - eauto.
  - destruct (restrict st.1 v P X) as [new_P new_X] eqn:E.
    destruct (Hcall ({[v]} ∪ R) new_P new_X st) as (st1 & -> & Hg1); [|done|].
    { replace new_P with (restrict st.1 v P X).1 by (by rewrite E).
      rewrite Hg. eapply Nat.lt_le_trans; [|exact Hbound].
      apply restrict_loses_pivot with u; [done..|]. apply Hvs. set_solver. }
    apply IH; [set_solver|set_solver|done].
Qed.

Lemma bron_kerbosch_total fuel R P X st :
  (size P < fuel)%nat → ∃ st', bron_kerbosch fuel R P X st = Some st' ∧ st'.1 = st.1.
Proof.
  revert R P X st. induction fuel as [|fuel IH]; intros R P X st Hsize; [lia|].
  simpl.
  destruct (bool_decide (P = ∅) && bool_decide (X = ∅)); [eauto|].
  destruct (bool_decide (P = ∅)) eqn:EP; [eauto|].
  apply bool_decide_eq_false in EP.
  apply branch_loop_total with (g := st.1) (P0 := P)
    (u := choose_pivot st.1 P X) (bound := fuel).
  - intros R' P' X' st1 Hlt Hg1. destruct (IH R' P' X' st1 Hlt) as (st' & ? & ?).
    exists st'. split; [done|congruence].
  - by apply choose_pivot_in.
  - lia.
  - done.
  - intros v. by rewrite elem_of_set_elems.
  - done.
Qed.

(** More fuel does not change an answer. *)
Lemma branch_loop_mono (call call' : gset Z → gset Z → gset Z → SearchState → option SearchState) R vs :
  (∀ R' P' X' st st', call R' P' X' st = Some st' → call' R' P' X' st = Some st') →
  ∀ P X st st', branch_loop call R vs P X st = Some st' →
                branch_loop call' R vs P X st = Some st'.
Proof.
  intros Hcall. induction vs as [|v vs IH]; intros P X st st'; simpl; [done|].
  destruct (restrict st.1 v P X) as [new_P new_X].
  destruct (call _ _ _ st) as [st1|] eqn:E; [|done].
  rewrite (Hcall _ _ _ _ _ E). apply IH.
Qed.

Lemma bron_kerbosch_mono fuel fuel' R P X st st' :
  (fuel ≤ fuel')%nat →
  bron_kerbosch fuel R P X st = Some st' → bron_kerbosch fuel' R P X st = Some st'.
Proof.
  revert fuel' R P X st st'.
  induction fuel as [|fuel IH]; intros fuel' R P X st st' Hle; [done|].
  destruct fuel' as [|fuel']; [lia|]. simpl.
  destruct (bool_decide (P = ∅) && bool_decide (X = ∅)); [done|].
  destruct (bool_decide (P = ∅)); [done|].
  apply branch_loop_mono. intros R' P' X' st1 st1'. apply IH. lia.
Qed.

Lemma size_all_vertices g : size (all_vertices g) = Z.to_nat (num_vertices g).
Proof.
  assert (Heq : all_vertices g = list_to_set (seqZ 0 (num_vertices g))).
  { apply set_eq. intros v. rewrite elem_of_all_vertices, elem_of_list_to_set,
      elem_of_seqZ. unfold vertex. lia. }
  rewrite Heq, size_list_to_set, length_seqZ; [done|apply NoDup_seqZ].
Qed.

Lemma find_max_cliques_total g : ∃ cliques, find_max_cliques g = Some (cliques, g).
Proof.
  unfold find_max_cliques. case_decide; [|eauto].
  destruct (bron_kerbosch_total (S (Z.to_nat (num_vertices g))) ∅
              (all_vertices g) ∅ (g, [])) as ([g' cl] & -> & Hg).
  { rewrite size_all_vertices. lia. }
  simpl in Hg. subst g'. eauto.
Qed.

(** ** Correctness of the search *)

Section search_correct.
Variable g : Graph.
Hypothesis Hsym : symmetric g.

Lemma adjacent_sym u v : adjacent g u v → adjacent g v u.
Proof using Hsym. unfold adjacent. by rewrite (Hsym u v). Qed.

Lemma search_invariant_init : search_invariant g ∅ (all_vertices g) ∅.
Proof using Type.
  clear Hsym.
  split; [|split; [|split]].
  - intros v Hv. by apply elem_of_empty in Hv.
  - intros u v Hu. by apply elem_of_empty in Hu.
  - apply disjoint_empty_r.
  - intros w. rewrite union_empty_r_L, elem_of_all_vertices.
    split; [|by intros [? _]].
    intros Hw. split; [done|]. intros r Hr. by apply elem_of_empty in Hr.
Qed.

Lemma search_invariant_child R P X v :
  search_invariant g R P X → v ∈ P →
  search_invariant g ({[v]} ∪ R) (restrict g v P X).1 (restrict g v P X).2.
Proof using Hsym.
  intros (HR & Hadj & Hdisj & Hcn) Hv.
  assert (Hcv : common_neighbor g R v) by (apply Hcn; set_solver).
  split; [|split; [|split]].
  - intros w [->%elem_of_singleton|Hw]%elem_of_union; [apply Hcv|by apply HR].
  - intros a b [->%elem_of_singleton|Ha]%elem_of_union
               [->%elem_of_singleton|Hb]%elem_of_union Hne.
    + done.
    + apply adjacent_sym. by apply Hcv.
    + by apply Hcv.
    + by apply Hadj.
  - intros w [Hw _]%elem_of_restrict_P [Hw' _]%elem_of_restrict_X. set_solver.
  - intros w. rewrite elem_of_union, elem_of_restrict_P, elem_of_restrict_X.
    split.
    + intros Hw. assert (Hin : w ∈ P ∪ X) by set_solver.
      apply Hcn in Hin as [Hvw Hall]. split; [done|].
      intros r [->%elem_of_singleton|Hr]%elem_of_union; [tauto|auto].
    + intros [Hvw Hall].
      assert (Hin : w ∈ P ∪ X).
      { apply Hcn. split; [done|]. intros r Hr. apply Hall. set_solver. }
      assert (adjacent g v w) by (apply Hall; set_solver).
      set_solver.
Qed.

Lemma search_invariant_next R P X v :
  search_invariant g R P X → v ∈ P →
  search_invariant g R (P ∖ {[v]}) (X ∪ {[v]}).
Proof using Type.
  clear Hsym.
  intros (HR & Hadj & Hdisj & Hcn) Hv.
  split; [done|split; [done|split]].
  - set_solver.
  - intros w. rewrite <- Hcn.
    destruct (decide (w = v)) as [->|]; set_solver.
Qed.

Lemma target_weaken R P P' C : P' ⊆ P → target g R P' C → target g R P C.
Proof using Type.
  clear Hsym. intros Hsub (? & ? & ?). split; [done|]. split; [done|set_solver]. Qed.

Lemma target_child R P X v C :
  v ∈ P → target g ({[v]} ∪ R) (restrict g v P X).1 C → target g R P C ∧ v ∈ C.
Proof using Type.
  clear Hsym.
  intros Hv (Hmax & Hsub & Hsup).
  split; [|set_solver]. split; [done|]. split; [set_solver|].
  intros c Hc. apply Hsup in Hc.
  apply elem_of_union in Hc as [Hc|[Hc _]%elem_of_restrict_P]; set_solver.
Qed.

Lemma target_into_child R P X v C :
  target g R P C → v ∈ C →
  target g ({[v]} ∪ R) (restrict g v P X).1 C.
Proof using Type.
  clear Hsym.
  intros (Hmax & Hsub & Hsup) Hv.
  split; [done|]. split; [set_solver|].
  intros c Hc. destruct (decide (c = v)) as [->|Hne]; [set_solver|].
  pose proof (Hsup c Hc) as [HcR|HcP]%elem_of_union; [set_solver|].
  apply elem_of_union. right. apply elem_of_restrict_P.
  destruct Hmax as [(_ & HV & Hpair) _]. auto.
Qed.

Lemma branch_loop_spec call R vs :
  call_spec g call →
  ∀ P X cl st',
    search_invariant g R P X → NoDup vs → (∀ v, v ∈ vs → v ∈ P) →
    branch_loop call R vs P X (g, cl) = Some st' →
    ∃ out, st' = (g, cl ++ out) ∧
      (∀ C, C ∈ out → target g R P C) ∧
      (loop_free g → NoDup out ∧
         ∀ C, target g R P C → (∃ v, v ∈ vs ∧ v ∈ C) → C ∈ out).
Proof using Hsym.
  intros Hcall. induction vs as [|v vs IH]; intros P X cl st' Hinv Hnd Hvs; simpl.
  - intros [= <-]. exists []. rewrite app_nil_r. split; [done|]. split.
    + intros C HC. by apply elem_of_nil in HC.
    + intros _. split; [constructor|]. intros C _ (w & Hw & _).
      by apply elem_of_nil in Hw.
  - apply NoDup_cons in Hnd as [Hv_vs Hnd].
    assert (Hv : v ∈ P) by (apply Hvs; set_solver).
    destruct (restrict g v P X) as [new_P new_X] eqn:E.
    destruct (call _ _ _ _) as [st1|] eqn:Ecall; [|done].
    intros Hloop.
    pose proof (search_invariant_child R P X v Hinv Hv) as Hchild.
    rewrite E in Hchild. simpl in Hchild.
    destruct (Hcall _ _ _ _ _ Hchild Ecall) as (out1 & -> & Hs1 & Hc1).
    destruct (IH (P ∖ {[v]}) (X ∪ {[v]}) (cl ++ out1) st') as (out2 & -> & Hs2 & Hc2).
    { by apply search_invariant_next. }
    { done. }
    { intros w Hw. apply elem_of_difference. split; [apply Hvs; set_solver|].
      intros ->%elem_of_singleton. done. }
    { done. }
    assert (Hs1' : ∀ C, C ∈ out1 → target g R P C ∧ v ∈ C).
    { intros C HC. apply (target_child R P X v C Hv). rewrite E. simpl. auto. }
    exists (out1 ++ out2). rewrite app_assoc. split; [done|]. split.
    + intros C [HC|HC]%elem_of_app; [by apply Hs1'|].
      eapply target_weaken; [|by apply Hs2]. set_solver.
    + intros Hlf. destruct (Hc1 Hlf) as [Hnd1 Hin1].
      destruct (Hc2 Hlf) as [Hnd2 Hin2]. split.
      * apply NoDup_app. split; [done|]. split; [|done].
        intros C HC1 HC2. destruct (Hs1' C HC1) as [_ HvC].
        destruct (Hs2 C HC2) as (_ & _ & Hsup).
        assert (HvR : v ∈ R) by set_solver.
        destruct Hinv as (_ & _ & _ & Hcn).
        assert (Hcv : common_neighbor g R v) by (apply Hcn; set_solver).
        destruct Hcv as [_ Hcv]. specialize (Hcv v HvR).
        unfold adjacent in Hcv. rewrite Hlf in Hcv. done.
      * intros C HC (w & Hw & HwC). apply elem_of_app.
        destruct (decide (v ∈ C)) as [HvC|HvC].
        -- left. apply Hin1.
           pose proof (target_into_child R P X v C HC HvC) as Ht.
           by rewrite E in Ht.
        -- right. apply Hin2.
           ++ destruct HC as (? & ? & ?). split; [done|]. split; [done|set_solver].
           ++ exists w. split; [|done].
              apply elem_of_cons in Hw as [->|Hw]; done.
Qed.

Lemma recorded_is_maximal R :
  0 < num_vertices g → search_invariant g R ∅ ∅ → maximal_clique g R.
Proof using Type.
  clear Hsym.
  intros Hpos (HR & Hadj & _ & Hcn).
  split; [split; [|done]|].
  - intros ->.
    assert (Hin : (0:Z) ∈ (∅ ∪ ∅ : gset Z)); [|clear -Hin; set_solver].
    apply Hcn. split; [unfold vertex; lia|]. intros r Hr.
    by apply elem_of_empty in Hr.
  - intros S HS Hpair [Hsub Hnsub].
    destruct (set_choose_or_empty (S ∖ R)) as [[w Hw]|Hempty].
    2:{ apply Hnsub. intros x Hx.
        destruct (decide (x ∈ R)) as [|Hn]; [done|].
        clear -Hempty Hx Hn. set_solver. }
    apply elem_of_difference in Hw as [HwS HwR].
    assert (Hin : w ∈ (∅ ∪ ∅ : gset Z)); [|clear -Hin; set_solver].
    apply Hcn. split; [by apply HS|].
    intros r Hr. apply Hpair; [by apply Hsub|done|]. by intros ->.
Qed.

Lemma excluded_not_maximal R X :
  loop_free g → search_invariant g R ∅ X → X ≠ ∅ → ¬ maximal_clique g R.
Proof using Hsym.
  intros Hlf (HR & Hadj & _ & Hcn) HX [_ Hmax].
  apply set_choose_L in HX as [x Hx].
  assert (Hcx : common_neighbor g R x) by (apply Hcn; set_solver).
  assert (HxR : x ∉ R).
  { intros Hin. destruct Hcx as [_ Hcx]. specialize (Hcx x Hin).
    unfold adjacent in Hcx. by rewrite Hlf in Hcx. }
  apply (Hmax ({[x]} ∪ R)).
  - intros w [->%elem_of_singleton|Hw]%elem_of_union; [apply Hcx|by apply HR].
  - intros a b [->%elem_of_singleton|Ha]%elem_of_union
               [->%elem_of_singleton|Hb]%elem_of_union Hne.
    + done.
    + apply adjacent_sym. by apply Hcx.
    + by apply Hcx.
    + by apply Hadj.
  - set_solver.
Qed.

(** The pivot argument: a maximal clique within [R ∪ P] meets
    [P ∖ N(u)], otherwise the pivot could be added to it. *)
Lemma pivot_covers R P X u C :
  loop_free g → search_invariant g R P X → u ∈ P → target g R P C →
  ∃ v, v ∈ set_elems (P_minus_N g P u) ∧ v ∈ C.
Proof using Hsym.
  intros Hlf (HR & Hadj & Hdisj & Hcn) Hu ((Hclique & Hmax) & Hsub & Hsup).
  destruct (set_choose_or_empty (P_minus_N g P u ∩ C)) as [[v Hv]|Hempty].
  { exists v. rewrite elem_of_set_elems. set_solver. }
  exfalso.
  assert (Hcu : common_neighbor g R u) by (apply Hcn; set_solver).
  assert (HuC : u ∉ C).
  { intros HuC. assert (Hin : u ∈ P_minus_N g P u ∩ C); [|set_solver].
    apply elem_of_intersection. split; [|done].
    apply elem_of_P_minus_N. auto. }
  assert (Hcu' : ∀ c, c ∈ C → adjacent g c u).
  { intros c Hc. destruct (decide (c ∈ R)) as [HcR|HcR]; [by apply Hcu|].
    assert (HcP : c ∈ P) by set_solver.
    destruct (is_neighbor g c u) eqn:E; [done|].
    assert (Hin : c ∈ P_minus_N g P u ∩ C); [|set_solver].
    apply elem_of_intersection. split; [|done].
    by apply elem_of_P_minus_N. }
  destruct Hclique as (_ & HV & Hpair).
  apply (Hmax ({[u]} ∪ C)).
  - intros w [->%elem_of_singleton|Hw]%elem_of_union; [apply Hcu|by apply HV].
  - intros a b [->%elem_of_singleton|Ha]%elem_of_union
               [->%elem_of_singleton|Hb]%elem_of_union Hne.
    + done.
    + apply adjacent_sym. by apply Hcu'.
    + by apply Hcu'.
    + by apply Hpair.
  - set_solver.
Qed.

Lemma bron_kerbosch_spec :
  0 < num_vertices g → ∀ fuel, call_spec g (bron_kerbosch fuel).
Proof using Hsym.
  intros Hpos.
  induction fuel as [|fuel IH]; intros R P X cl st' Hinv; simpl; [done|].
  destruct (bool_decide (P = ∅)) eqn:EP; simpl.
  - apply bool_decide_eq_true in EP. subst P.
    destruct (bool_decide (X = ∅)) eqn:EX.
    + apply bool_decide_eq_true in EX. subst X. intros [= <-].
      pose proof (recorded_is_maximal R Hpos Hinv) as HmaxR.
      exists [R]. split; [done|]. split.
      * intros C ->%list_elem_of_singleton. split; [done|]. set_solver.
      * intros _. split; [apply NoDup_singleton|].
        intros C (_ & ? & ?). apply list_elem_of_singleton. set_solver.
    + apply bool_decide_eq_false in EX. intros [= <-].
      exists []. rewrite app_nil_r. split; [done|]. split.
      * intros C HC. by apply elem_of_nil in HC.
      * intros Hlf. split; [constructor|]. intros C (HmaxC & ? & ?).
        assert (C = R) as -> by set_solver.
        by destruct (excluded_not_maximal R X Hlf Hinv EX).
  - apply bool_decide_eq_false in EP. intros Hloop.
    pose proof (choose_pivot_in g P X EP) as Hu.
    destruct (branch_loop_spec (bron_kerbosch fuel) R
                (set_elems (P_minus_N g P (choose_pivot g P X))) IH P X cl st' Hinv)
      as (out & -> & Hs & Hc).
    { apply NoDup_set_elems. }
    { intros v [Hv _]%elem_of_set_elems%elem_of_P_minus_N. done. }
    { done. }
    exists out. split; [done|]. split; [done|].
    intros Hlf. destruct (Hc Hlf) as [Hnd Hin]. split; [done|].
    intros C HC. apply Hin; [done|]. by apply pivot_covers with R X.
Qed.
End search_correct.

(** ** The adjacency matrix under construction and [add_edge] *)

Lemma vec_at_lookup {A} (d : A) l i x :
  0 ≤ i → l !! Z.to_nat i = Some x → vec_at d l i = x.
Proof. intros Hi Hx. unfold vec_at. case_decide; [by rewrite Hx|lia]. Qed.

Lemma vec_at_insert_eq {A} (d : A) l i x :
  0 ≤ i → (Z.to_nat i < length l)%nat → vec_at d (<[Z.to_nat i := x]> l) i = x.
Proof.
  intros Hi Hlen. apply vec_at_lookup; [done|]. by apply list_lookup_insert_eq.
Qed.

Lemma vec_at_insert_ne {A} (d : A) l i j x :
  0 ≤ i → i ≠ j → vec_at d (<[Z.to_nat i := x]> l) j = vec_at d l j.
Proof.
  intros Hi Hne. unfold vec_at. case_decide; [|done].
  rewrite list_lookup_insert_ne; [done|lia].
Qed.

Lemma entry_set_entry m u v a b :
  0 ≤ u → (Z.to_nat u < length m)%nat →
  0 ≤ v → (Z.to_nat v < length (vec_at [] m u))%nat →
  vec_at false (vec_at [] (set_entry m u v) a) b =
  if decide (a = u ∧ b = v) then true
  else vec_at false (vec_at [] m a) b.
Proof.
  intros Hu Hlu Hv Hlv. unfold set_entry.
  destruct (decide (a = u)) as [->|Hne].
  - rewrite vec_at_insert_eq by done.
    destruct (decide (b = v)) as [->|Hne].
    + rewrite vec_at_insert_eq by done. by rewrite decide_True.
    + rewrite vec_at_insert_ne by done. rewrite decide_False; [done|tauto].
  - rewrite vec_at_insert_ne by done. rewrite decide_False; [done|tauto].
Qed.

Lemma well_formed_row g u :
  well_formed g → 0 ≤ u < num_vertices g →
  length (vec_at [] (adj_matrix g) u) = Z.to_nat (num_vertices g).
Proof.
  intros (Hn & Hlen & Hrows) Hu.
  destruct (lookup_lt_is_Some_2 (adj_matrix g) (Z.to_nat u)) as [row Hrow]; [lia|].
  rewrite (vec_at_lookup [] _ u row) by (done || lia).
  by eapply (proj1 (Forall_lookup _ _) Hrows).
Qed.

Lemma set_entry_shape (n : nat) m u v :
  length m = n → Forall (λ row, length row = n) m → 0 ≤ u →
  length (set_entry m u v) = n ∧ Forall (λ row, length row = n) (set_entry m u v).
Proof.
  intros Hlen Hrows Hu. unfold set_entry. split; [by rewrite length_insert|].
  destruct (decide (Z.to_nat u < length m)%nat) as [Hlt|Hge].
  - destruct (lookup_lt_is_Some_2 m (Z.to_nat u) Hlt) as [row Hrow].
    apply Forall_insert; [done|].
    rewrite (vec_at_lookup [] _ u row) by done. rewrite length_insert.
    by eapply (proj1 (Forall_lookup _ _) Hrows).
  - rewrite list_insert_ge by lia. done.
Qed.

Lemma add_edge_num_vertices g u v : num_vertices (add_edge g u v) = num_vertices g.
Proof. unfold add_edge. by case_decide. Qed.

Lemma add_edge_well_formed g u v : well_formed g → well_formed (add_edge g u v).
Proof.
  intros Hwf. unfold add_edge. case_decide as Hin; [|done].
  destruct Hwf as (Hn & Hlen & Hrows). unfold well_formed. simpl.
  destruct (set_entry_shape _ (adj_matrix g) u v Hlen Hrows) as [Hlen1 Hrows1]; [lia|].
  destruct (set_entry_shape _ _ v u Hlen1 Hrows1) as [Hlen2 Hrows2]; [lia|].
  done.
Qed.

(** What [add_edge] does to every entry of the matrix. *)
Lemma is_neighbor_add_edge g u v a b :
  well_formed g →
  is_neighbor (add_edge g u v) a b =
  if decide (0 ≤ u ∧ u < num_vertices g ∧ 0 ≤ v ∧ v < num_vertices g) then
    if decide ((a = u ∧ b = v) ∨ (a = v ∧ b = u)) then true else is_neighbor g a b
  else is_neighbor g a b.
Proof.
  intros Hwf. unfold add_edge. case_decide as Hin; [|done].
  pose proof Hwf as (Hn & Hlen & Hrows).
  unfold is_neighbor. simpl.
  destruct (set_entry_shape _ (adj_matrix g) u v Hlen Hrows) as [Hlen1 Hrows1]; [lia|].
  assert (Hrow_v : length (vec_at [] (set_entry (adj_matrix g) u v) v)
                   = Z.to_nat (num_vertices g)).
  { apply (well_formed_row (mkGraph (num_vertices g) (set_entry (adj_matrix g) u v)));
      [|simpl; lia]. unfold well_formed. simpl. done. }
  rewrite entry_set_entry; [|lia|lia|lia|rewrite Hrow_v; lia].
  rewrite entry_set_entry;
    [|lia|lia|lia|rewrite well_formed_row by (done || lia); lia].
  repeat case_decide; tauto.
Qed.

Lemma Graph_new_well_formed n : 0 ≤ n → well_formed (Graph_new n).
Proof.
  intros Hn. unfold well_formed, Graph_new. simpl.
  split; [done|]. split; [by rewrite length_replicate|].
  apply Forall_replicate. by rewrite length_replicate.
Qed.

Lemma is_neighbor_Graph_new n u v : is_neighbor (Graph_new n) u v = false.
Proof.
  unfold is_neighbor, Graph_new, vec_at. simpl.
  repeat case_decide; try done.
  destruct (replicate _ _ !! Z.to_nat u) as [row|] eqn:E; simpl; [|done].
  apply lookup_replicate in E as [-> _].
  destruct (replicate _ _ !! Z.to_nat v) as [b|] eqn:E'; simpl; [|done].
  by apply lookup_replicate in E' as [-> _].
Qed.

Lemma add_edges_cons e es g : add_edges (e :: es) g = add_edges es (add_edge g e.1 e.2).
Proof. done. Qed.

Lemma add_edges_num_vertices es g : num_vertices (add_edges es g) = num_vertices g.
Proof.
  revert g. induction es as [|e es IH]; intros g; [done|].
  by rewrite add_edges_cons, IH, add_edge_num_vertices.
Qed.

Lemma add_edges_well_formed es g : well_formed g → well_formed (add_edges es g).
Proof.
  revert g. induction es as [|e es IH]; intros g Hwf; [done|].
  rewrite add_edges_cons. by apply IH, add_edge_well_formed.
Qed.

Lemma add_edge_symmetric g u v :
  well_formed g → symmetric g → symmetric (add_edge g u v).
Proof.
  intros Hwf Hsym a b. rewrite !is_neighbor_add_edge by done.
  rewrite (Hsym a b). repeat case_decide; tauto.
Qed.

Lemma add_edge_loop_free g u v :
  well_formed g → u ≠ v → loop_free g → loop_free (add_edge g u v).
Proof.
  intros Hwf Hne Hlf a. rewrite is_neighbor_add_edge by done.
  rewrite (Hlf a). repeat case_decide; try done. lia.
Qed.

Lemma add_edges_symmetric es g :
  well_formed g → symmetric g → symmetric (add_edges es g).
Proof.
  revert g. induction es as [|e es IH]; intros g Hwf Hsym; [done|].
  rewrite add_edges_cons. apply IH; [by apply add_edge_well_formed|].
  by apply add_edge_symmetric.
Qed.

Lemma add_edges_loop_free es g :
  well_formed g → Forall (λ e, e.1 ≠ e.2) es → loop_free g →
  loop_free (add_edges es g).
Proof.
  revert g. induction es as [|e es IH]; intros g Hwf Hes Hlf; [done|].
  apply Forall_cons in Hes as [He Hes].
  rewrite add_edges_cons. apply IH; [by apply add_edge_well_formed|done|].
  by apply add_edge_loop_free.
Qed.

Lemma built_symmetric n es : 0 ≤ n → symmetric (add_edges es (Graph_new n)).
Proof.
  intros Hn. apply add_edges_symmetric; [by apply Graph_new_well_formed|].
  intros u v. by rewrite !is_neighbor_Graph_new.
Qed.

Lemma built_loop_free n es :
  0 ≤ n → Forall (λ e, e.1 ≠ e.2) es → loop_free (add_edges es (Graph_new n)).
Proof.
  intros Hn Hes. apply add_edges_loop_free; [by apply Graph_new_well_formed|done|].
  intros v. apply is_neighbor_Graph_new.
Qed.

(** ** The call history is a ghost *)

Lemma branch_loop_traced_erase call call' R vs :
  (∀ R' P' X' st tr, fst <$> call' R' P' X' (st, tr) = call R' P' X' st) →
  ∀ P X st tr,
    fst <$> branch_loop_traced call' R vs P X (st, tr) = branch_loop call R vs P X st.
Proof.
  intros Hcall. induction vs as [|v vs IH]; intros P X st tr; simpl; [done|].
  destruct (restrict st.1 v P X) as [new_P new_X].
  rewrite <- (Hcall _ _ _ st tr).
  destruct (call' _ _ _ (st, tr)) as [[st1 tr1]|]; simpl; [|done].
  apply IH.
Qed.

Lemma bron_kerbosch_traced_erase fuel R P X st tr :
  fst <$> bron_kerbosch_traced fuel R P X (st, tr) = bron_kerbosch fuel R P X st.
Proof.
  revert R P X st tr. induction fuel as [|fuel IH]; intros R P X st tr; simpl; [done|].
  destruct (bool_decide (P = ∅) && bool_decide (X = ∅)); [done|].
  destruct (bool_decide (P = ∅)); [done|].
  by apply branch_loop_traced_erase.
Qed.

Lemma find_max_cliques_traced_erase g :
  (λ r, (r.1.1, r.1.2)) <$> find_max_cliques_traced g = find_max_cliques g.
Proof.
  unfold find_max_cliques_traced, find_max_cliques. case_decide; [|done].
  rewrite <- (bron_kerbosch_traced_erase _ _ _ _ (g, []) []).
  by destruct (bron_kerbosch_traced _ _ _ _ _) as [[[g' cl] tr]|].
Qed.

Lemma find_max_cliques_traced_total g :
  ∃ cliques history,
    find_max_cliques_traced g = Some (cliques, g, history) ∧
    find_max_cliques g = Some (cliques, g).
Proof.
  destruct (find_max_cliques_total g) as [cl Hcl].
  pose proof (find_max_cliques_traced_erase g) as Herase. rewrite Hcl in Herase.
  destruct (find_max_cliques_traced g) as [[[cl' g'] tr]|]; [|done].
  simpl in Herase. injection Herase as -> ->. eauto.
Qed.

(** ** What the history records *)

Lemma recorded_app h1 h2 : recorded (h1 ++ h2) = recorded h1 ++ recorded h2.
Proof. unfold recorded. by rewrite filter_app, fmap_app. Qed.

Lemma branch_loop_traced_recorded call R vs :
  (∀ R' P' X' st tr ts', call R' P' X' (st, tr) = Some ts' →
     ∃ calls, ts'.2 = tr ++ calls ∧ ts'.1.1 = st.1 ∧
              ts'.1.2 = st.2 ++ recorded calls) →
  ∀ P X st tr ts', branch_loop_traced call R vs P X (st, tr) = Some ts' →
     ∃ calls, ts'.2 = tr ++ calls ∧ ts'.1.1 = st.1 ∧
              ts'.1.2 = st.2 ++ recorded calls.
Proof.
  intros Hcall. induction vs as [|v vs IH]; intros P X st tr ts'; simpl.
  - intros [= <-]. exists []. by rewrite !app_nil_r.
  - destruct (restrict st.1 v P X) as [new_P new_X].
    destruct (call _ _ _ (st, tr)) as [[st1 tr1]|] eqn:E; [|done].
    intros Hloop.
    destruct (Hcall _ _ _ _ _ _ E) as (calls1 & Htr1 & Hg1 & Hcl1).
    destruct (IH _ _ _ _ _ Hloop) as (calls2 & Htr2 & Hg2 & Hcl2).
    simpl in *. exists (calls1 ++ calls2).
    rewrite Htr2, Htr1, Hg2, Hg1, Hcl2, Hcl1, recorded_app, !app_assoc. done.
Qed.

Lemma recorded_cons f h :
  recorded (f :: h) = if records f then frame_R f :: recorded h else recorded h.
Proof.
  unfold recorded. rewrite filter_cons.
  destruct (records f); [by rewrite decide_True|by rewrite decide_False].
Qed.

Lemma bron_kerbosch_traced_recorded fuel R P X st tr ts' :
  bron_kerbosch_traced fuel R P X (st, tr) = Some ts' →
  ∃ calls, ts'.2 = tr ++ calls ∧ ts'.1.1 = st.1 ∧
           ts'.1.2 = st.2 ++ recorded calls.
Proof.
  revert R P X st tr ts'.
  induction fuel as [|fuel IH]; intros R P X st tr ts'; [done|].
  cbn [bron_kerbosch_traced fst snd].
  destruct (bool_decide (P = ∅)) eqn:EP; cbn [andb].
  - destruct (bool_decide (X = ∅)) eqn:EX; intros [= <-];
      exists [mkFrame R P X]; rewrite recorded_cons; unfold records;
      cbn [frame_P frame_X frame_R fst snd]; rewrite EP, EX; cbn [andb].
    + done.
    + by rewrite app_nil_r.
  - intros Hloop.
    destruct (branch_loop_traced_recorded _ _ _ IH _ _ _ _ _ Hloop)
      as (calls & Htr & Hg & Hcl).
    exists (mkFrame R P X :: calls). rewrite Htr, Hg, Hcl.
    rewrite recorded_cons. unfold records. cbn [frame_P frame_X frame_R fst snd].
    rewrite EP. cbn [andb]. by rewrite <- app_assoc.
Qed.

(** ** The invariant holds at every activation *)

Section history_invariant.
Variable g : Graph.
Hypothesis Hsym : symmetric g.

Lemma branch_loop_traced_invariant call R vs :
  (∀ R' P' X' cl tr ts', search_invariant g R' P' X' →
     call R' P' X' ((g, cl), tr) = Some ts' →
     ∃ cl' calls, ts' = ((g, cl'), tr ++ calls) ∧ Forall (frame_invariant g) calls) →
  ∀ P X cl tr ts',
    search_invariant g R P X → NoDup vs → (∀ v, v ∈ vs → v ∈ P) →
    branch_loop_traced call R vs P X ((g, cl), tr) = Some ts' →
    ∃ cl' calls, ts' = ((g, cl'), tr ++ calls) ∧ Forall (frame_invariant g) calls.
Proof using Hsym.
  intros Hcall. induction vs as [|v vs IH]; intros P X cl tr ts' Hinv Hnd Hvs; simpl.
  - intros [= <-]. exists cl, []. by rewrite app_nil_r.
  - apply NoDup_cons in Hnd as [Hv_vs Hnd].
    assert (Hv : v ∈ P) by (apply Hvs; set_solver).
    pose proof (search_invariant_child g Hsym R P X v Hinv Hv) as Hchild.
    destruct (restrict g v P X) as [new_P new_X].
    destruct (call _ _ _ _) as [ts1|] eqn:E; [|done].
    destruct (Hcall _ _ _ _ _ _ Hchild E) as (cl1 & calls1 & -> & Hall1).
    intros Hloop.
    destruct (IH (P ∖ {[v]}) (X ∪ {[v]}) cl1 (tr ++ calls1) ts')
      as (cl2 & calls2 & -> & Hall2).
    { by apply search_invariant_next. }
    { done. }
    { intros w Hw. apply elem_of_difference. split; [apply Hvs; set_solver|].
      intros ->%elem_of_singleton. done. }
    { done. }
    exists cl2, (calls1 ++ calls2). rewrite app_assoc. split; [done|].
    by apply Forall_app.
Qed.

Lemma bron_kerbosch_traced_invariant fuel R P X cl tr ts' :
  search_invariant g R P X →
  bron_kerbosch_traced fuel R P X ((g, cl), tr) = Some ts' →
  ∃ cl' calls, ts' = ((g, cl'), tr ++ calls) ∧ Forall (frame_invariant g) calls.
Proof using Hsym.
  revert R P X cl tr ts'.
  induction fuel as [|fuel IH]; intros R P X cl tr ts' Hinv; simpl; [done|].
  destruct (bool_decide (P = ∅)) eqn:EP; simpl.
  - destruct (bool_decide (X = ∅)); intros [= <-];
      eexists _, [mkFrame R P X]; (split; [done|]);
      by apply Forall_singleton.
  - apply bool_decide_eq_false in EP. intros Hloop.
    destruct (branch_loop_traced_invariant (bron_kerbosch_traced fuel) R
                (set_elems (P_minus_N g P (choose_pivot g P X))) IH P X cl
                (tr ++ [mkFrame R P X]) ts' Hinv)
      as (cl' & calls & -> & Hall).
    { apply NoDup_set_elems. }
    { intros v [Hv _]%elem_of_set_elems%elem_of_P_minus_N. done. }
    { done. }
    exists cl', (mkFrame R P X :: calls). rewrite <- app_assoc. split; [done|].
    by apply Forall_cons.
Qed.

Lemma find_max_cliques_traced_invariant cliques g' history :
  find_max_cliques_traced g = Some (cliques, g', history) →
  Forall (frame_invariant g) history.
Proof using Hsym.
  unfold find_max_cliques_traced. case_decide as Hpos.
  - destruct (bron_kerbosch_traced _ _ _ _ _) as [[[g1 cl1] tr1]|] eqn:E; [|done].
    intros [= -> -> ->].
    destruct (bron_kerbosch_traced_invariant _ _ _ _ _ _ _
                (search_invariant_init g) E) as (cl' & calls & Heq & Hall).
    injection Heq as -> -> ->. done.
  - intros [= <- <- <-]. constructor.
Qed.

(** The invariant of the specification follows from the one carried. *)
Lemma search_invariant_state R P X :
  search_invariant g R P X → state_invariant g R P X.
Proof using Hsym.
  intros (HR & Hadj & Hdisj & Hcn). split; [|done].
  intros w r Hw Hr. apply (adjacent_sym g Hsym). by apply Hcn.
Qed.

(** A vertex branched on is new to [R]. *)
Lemma branch_vertex_fresh R P X u v :
  search_invariant g R P X → u ∈ P → v ∈ P_minus_N g P u → v ∉ R.
Proof using Type.
  clear Hsym.
  intros (_ & _ & _ & Hcn) Hu [_ Hv]%elem_of_P_minus_N HvR.
  assert (Hcu : common_neighbor g R u) by (apply Hcn; set_solver).
  destruct Hcu as [_ Hcu]. specialize (Hcu v HvR).
  unfold adjacent in Hcu. congruence.
Qed.

Lemma search_invariant_size R P X :
  search_invariant g R P X → (size R ≤ Z.to_nat (num_vertices g))%nat.
Proof using Type.
  clear Hsym.
  intros (HR & _). rewrite <- size_all_vertices. apply subseteq_size.
  intros v Hv. apply elem_of_all_vertices. by apply HR.
Qed.
End history_invariant.

(** ** The contract of [find_max_cliques] *)

Lemma no_clique_without_vertices g C : num_vertices g ≤ 0 → ¬ clique g C.
Proof.
  intros Hn (Hne & HV & _). apply set_choose_L in Hne as [v Hv].
  apply HV in Hv. unfold vertex in Hv. lia.
Qed.

Lemma target_top g C : target g ∅ (all_vertices g) C ↔ maximal_clique g C.
Proof.
  split; [by intros [? _]|]. intros Hmax. split; [done|].
  split; [set_solver|]. intros v Hv. apply elem_of_union. right.
  apply elem_of_all_vertices. destruct Hmax as [(_ & HV & _) _]. by apply HV.
Qed.

Lemma find_max_cliques_spec g :
  symmetric g →
  ∃ cliques, find_max_cliques g = Some (cliques, g) ∧
    (∀ C, C ∈ cliques → maximal_clique g C) ∧
    (loop_free g → NoDup cliques ∧ ∀ C, maximal_clique g C → C ∈ cliques).
Proof.
  intros Hsym. destruct (find_max_cliques_total g) as [cliques Hrun].
  exists cliques. split; [done|]. revert Hrun.
  unfold find_max_cliques. case_decide as Hpos.
  - destruct (bron_kerbosch _ _ _ _ _) as [[g' cl]|] eqn:E; [|done].
    intros [= -> ->].
    assert (Hpos' : 0 < num_vertices g) by lia.
    destruct (bron_kerbosch_spec g Hsym Hpos' _ _ _ _ _ _
                (search_invariant_init g) E) as (out & [= ->] & Hs & Hc).
    split.
    + intros C HC. by apply target_top, Hs.
    + intros Hlf. destruct (Hc Hlf) as [Hnd Hin]. split; [done|].
      intros C HC. by apply Hin, target_top.
  - intros [= <-]. split.
    + intros C HC. by apply elem_of_nil in HC.
    + intros _. split; [constructor|]. intros C [HC _].
      destruct (no_clique_without_vertices g C); [lia|done].
Qed.

(** ** Graphs without edges *)

Lemma Sorted_seqZ m n : Sorted Z.le (seqZ m n).
Proof.
  unfold seqZ. generalize (Z.to_nat n) as k. generalize 0%nat as s.
  intros s k. revert s. induction k as [|k IH]; intros s; simpl; constructor.
  - apply IH.
  - destruct k; simpl; constructor. lia.
Qed.

Lemma set_elems_all_vertices g : set_elems (all_vertices g) = seqZ 0 (num_vertices g).
Proof.
  apply (Sorted_unique Z.le).
  - apply Sorted_set_elems.
  - apply Sorted_seqZ.
  - apply NoDup_Permutation; [apply NoDup_set_elems|apply NoDup_seqZ|].
    intros v. rewrite elem_of_set_elems, elem_of_all_vertices, elem_of_seqZ.
    unfold vertex. lia.
Qed.

Lemma get_neighbors_edgeless g v :
  (∀ a b, is_neighbor g a b = false) → get_neighbors g v = [].
Proof.
  intros Hno. apply elem_of_nil_inv. intros w [_ Hadj]%elem_of_get_neighbors.
  unfold adjacent in Hadj. by rewrite Hno in Hadj.
Qed.

Lemma branch_loop_edgeless g fuel R vs :
  (∀ a b, is_neighbor g a b = false) →
  ∀ P X cl,
    branch_loop (bron_kerbosch (S fuel)) R vs P X (g, cl)
    = Some (g, cl ++ ((λ v, {[v]} ∪ R) <$> vs)).
Proof.
  intros Hno. induction vs as [|v vs IH]; intros P X cl.
  - simpl. by rewrite app_nil_r.
  - cbn [branch_loop fst]. unfold restrict. rewrite get_neighbors_edgeless by done.
    cbn [fold_left bron_kerbosch].
    rewrite !bool_decide_eq_true_2 by done. cbn [andb fst snd].
    rewrite IH. by rewrite <- app_assoc.
Qed.

Lemma bron_kerbosch_branch fuel R P X st :
  P ≠ ∅ →
  bron_kerbosch (S fuel) R P X st
  = branch_loop (bron_kerbosch fuel) R
      (set_elems (P_minus_N st.1 P (choose_pivot st.1 P X))) P X st.
Proof. intros HP. simpl. by rewrite (bool_decide_eq_false_2 (P = ∅)). Qed.

Lemma find_max_cliques_edgeless g :
  0 < num_vertices g → (∀ a b, is_neighbor g a b = false) →
  find_max_cliques g = Some ((λ v, {[v]}) <$> seqZ 0 (num_vertices g), g).
Proof.
  intros Hpos Hno. unfold find_max_cliques. rewrite decide_True by lia.
  assert (Hne : all_vertices g ≠ ∅).
  { intros Heq. assert (Hin : 0 ∈ all_vertices g); [|set_solver].
    apply elem_of_all_vertices. unfold vertex. lia. }
  destruct (Z.to_nat (num_vertices g)) as [|fuel] eqn:Efuel; [lia|].
  rewrite bron_kerbosch_branch by done. cbn [fst].
  assert (HPN : P_minus_N g (all_vertices g) (choose_pivot g (all_vertices g) ∅)
                = all_vertices g).
  { apply set_eq. intros v. rewrite elem_of_P_minus_N. rewrite Hno. tauto. }
  rewrite HPN, set_elems_all_vertices, branch_loop_edgeless by done.
  cbn [app]. do 2 f_equal. apply list_fmap_ext. intros _ v _.
  apply union_empty_r_L.
Qed.

(** ** The sets handed to a recursive call *)

Lemma elem_of_neighborhood g v w :
  w ∈ neighborhood g v ↔ vertex g w ∧ adjacent g v w.
Proof. unfold neighborhood. by rewrite elem_of_list_to_set, elem_of_get_neighbors. Qed.

Lemma restrict_intersection g v P X :
  restrict g v P X = (P ∩ neighborhood g v, X ∩ neighborhood g v).
Proof.
  pose proof (elem_of_restrict_P g v P X) as HP.
  pose proof (elem_of_restrict_X g v P X) as HX.
  destruct (restrict g v P X) as [new_P new_X]. simpl in *.
  f_equal; apply set_eq; intros w.
  - rewrite HP, elem_of_intersection, elem_of_neighborhood. tauto.
  - rewrite HX, elem_of_intersection, elem_of_neighborhood. tauto.
Qed.

Lemma state_invariant_child g R P X v :
  symmetric g → state_invariant g R P X → v ∈ P →
  state_invariant g ({[v]} ∪ R) (P ∩ neighborhood g v) (X ∩ neighborhood g v).
Proof.
  intros Hsym (Hadj & Hdisj & HR) Hv.
  assert (HvR : ∀ r, r ∈ R → adjacent g v r) by (intros r Hr; apply Hadj; set_solver).
  split; [|split].
  - intros w r Hw [->%elem_of_singleton|Hr]%elem_of_union.
    + apply (adjacent_sym g Hsym).
      apply elem_of_union in Hw as [Hw|Hw];
        apply elem_of_intersection in Hw as [_ Hw];
        by apply elem_of_neighborhood in Hw as [_ Hw].
    + apply Hadj; [|done]. set_solver.
  - set_solver.
  - intros a b [->%elem_of_singleton|Ha]%elem_of_union
               [->%elem_of_singleton|Hb]%elem_of_union Hne.
    + done.
    + by apply HvR.
    + apply (adjacent_sym g Hsym). by apply HvR.
    + by apply HR.
Qed.

Lemma state_invariant_next g R P X v :
  state_invariant g R P X → v ∈ P → state_invariant g R (P ∖ {[v]}) (X ∪ {[v]}).
Proof.
  intros (Hadj & Hdisj & HR) Hv. split; [|split; [set_solver|done]].
  intros w r Hw Hr. apply Hadj; [|done].
  destruct (decide (w = v)) as [->|]; set_solver.
Qed.

(** ** Construction *)

Lemma to_size_t_negative `{Runtime} n :
  - 2 ^ 31 ≤ n < 0 → to_size_t n = n + 2 ^ size_t_bits.
Proof.
  intros Hn. unfold to_size_t.
  pose proof size_t_bits_int as Hbits.
  assert (2 ^ 32 ≤ 2 ^ size_t_bits) by (apply Z.pow_le_mono_r; lia).
  symmetry. apply (Z.mod_unique _ _ (-1)); lia.
Qed.

Lemma to_size_t_nonnegative `{Runtime} n : 0 ≤ n < 2 ^ 31 → to_size_t n = n.
Proof.
  intros Hn. unfold to_size_t.
  pose proof size_t_bits_int as Hbits.
  assert (2 ^ 32 ≤ 2 ^ size_t_bits) by (apply Z.pow_le_mono_r; lia).
  apply Z.mod_small. lia.
Qed.

(** * The claims of the specification *)

(** C1, as stated, fails: after [add_edge(0, 0)] on the one-vertex graph
    the set [{0}] is a maximal clique, the search returns the empty
    collection, and so the contract does not hold for that graph. *)
Lemma self_loop_hides_maximal_clique :
  let g := add_edge (Graph_new 1) 0 0 in
  maximal_clique g {[0]} ∧
  find_max_cliques g = Some ([], g) ∧
  ¬ lists_maximal_cliques g.
Proof.
  intros g.
  assert (Hmax : maximal_clique g {[0]}).
  { split; [split; [|split]|].
    - set_solver.
    - intros v ->%elem_of_singleton. unfold vertex. simpl. lia.
    - intros u v ->%elem_of_singleton ->%elem_of_singleton. done.
    - intros S HS _ [Hsub Hnsub]. apply Hnsub. intros v Hv.
      apply HS in Hv. unfold vertex in Hv. simpl in Hv.
      apply elem_of_singleton. lia. }
  assert (Hrun : find_max_cliques g = Some ([], g)) by (vm_compute; reflexivity).
  split; [done|]. split; [done|].
  intros (cliques & g' & Heq & _ & Hiff).
  rewrite Hrun in Heq. injection Heq as <- <-.
  apply Hiff in Hmax. by apply elem_of_nil in Hmax.
Qed.

(** C1 (amended): for every graph constructed with a vertex count [n ≥ 0]
    and any sequence of [add_edge] calls that leaves no vertex adjacent
    to itself, [find_max_cliques] returns a collection without
    duplicates whose elements are exactly the maximal cliques of the
    graph. *)
Theorem find_max_cliques_complete n es :
  0 ≤ n →
  loop_free (add_edges es (Graph_new n)) →
  lists_maximal_cliques (add_edges es (Graph_new n)).
Proof.
  intros Hn Hlf.
  destruct (find_max_cliques_spec _ (built_symmetric n es Hn))
    as (cliques & Hrun & Hs & Hc).
  destruct (Hc Hlf) as [Hnd Hin].
  exists cliques, (add_edges es (Graph_new n)).
  split; [done|]. split; [done|]. intros C. split; auto.
Qed.

Lemma find_max_cliques_complete_witness :
  lists_maximal_cliques (add_edges [(0, 1); (1, 2); (2, 3); (3, 0); (9, 9)] (Graph_new 4)).
Proof.
  apply (find_max_cliques_complete 4); [lia|].
  intros v. unfold is_neighbor, vec_at.
  destruct (decide (0 ≤ v)) as [Hv|]; [|reflexivity].
  destruct (Z.to_nat v) as [|[|[|[|k]]]] eqn:E; vm_compute; reflexivity.
Defined.

(** C2: every set returned by [find_max_cliques] on a constructed graph
    (self-loops included) is a set of vertices that are pairwise adjacent,
    and no pairwise adjacent vertex set contains it properly. *)
Theorem find_max_cliques_sound n es :
  0 ≤ n →
  ∃ cliques,
    find_max_cliques (add_edges es (Graph_new n))
    = Some (cliques, add_edges es (Graph_new n)) ∧
    ∀ C, C ∈ cliques →
      vertex_set (add_edges es (Graph_new n)) C ∧
      pairwise_adjacent (add_edges es (Graph_new n)) C ∧
      maximal (add_edges es (Graph_new n)) C.
Proof.
  intros Hn.
  destruct (find_max_cliques_spec _ (built_symmetric n es Hn))
    as (cliques & Hrun & Hs & _).
  exists cliques. split; [done|]. intros C HC.
  destruct (Hs C HC) as [(_ & HV & Hpair) Hmax]. done.
Qed.

Lemma find_max_cliques_sound_witness :
  ∃ cliques,
    find_max_cliques (add_edges [(0, 0); (0, 1); (1, 2)] (Graph_new 3))
    = Some (cliques, add_edges [(0, 0); (0, 1); (1, 2)] (Graph_new 3)) ∧
    ∀ C, C ∈ cliques →
      vertex_set (add_edges [(0, 0); (0, 1); (1, 2)] (Graph_new 3)) C ∧
      pairwise_adjacent (add_edges [(0, 0); (0, 1); (1, 2)] (Graph_new 3)) C ∧
      maximal (add_edges [(0, 0); (0, 1); (1, 2)] (Graph_new 3)) C.
Proof. apply (find_max_cliques_sound 3); lia. Defined.

(** C3: on a graph without vertices [find_max_cliques] returns the empty
    collection; on a graph with [n > 0] vertices and no edges it returns
    the singletons [{0}], ..., [{n-1}], in this order and nothing else. *)
Theorem find_max_cliques_trivial_graphs :
  (∀ g, num_vertices g = 0 → find_max_cliques g = Some ([], g)) ∧
  (∀ g, 0 < num_vertices g → (∀ u v, is_neighbor g u v = false) →
     find_max_cliques g = Some ((λ v, {[v]}) <$> seqZ 0 (num_vertices g), g)).
Proof.
  split.
  - intros g Hn. unfold find_max_cliques. rewrite decide_False by lia. done.
  - apply find_max_cliques_edgeless.
Qed.

Lemma find_max_cliques_trivial_graphs_witness :
  find_max_cliques (add_edge (Graph_new 0) 0 0) = Some ([], add_edge (Graph_new 0) 0 0) ∧
  find_max_cliques (Graph_new 3) = Some ([{[0]}; {[1]}; {[2]}], Graph_new 3).
Proof.
  split.
  - apply (proj1 find_max_cliques_trivial_graphs). reflexivity.
  - apply (proj2 find_max_cliques_trivial_graphs (Graph_new 3)); [simpl; lia|].
    apply is_neighbor_Graph_new.
Defined.

(** C4: the search terminates on every graph value: [find_max_cliques]
    returns a result with the [num_vertices + 1] nested activations its
    definition allows, any activation returns once its fuel exceeds the
    size of its [P], and on a constructed graph every activation has an
    [R] of at most [n] vertices to which each branch adds a vertex that
    was not in it. *)
Theorem search_terminates :
  (∀ g, ∃ cliques, find_max_cliques g = Some (cliques, g)) ∧
  (∀ fuel R P X st, (size P < fuel)%nat → is_Some (bron_kerbosch fuel R P X st)) ∧
  (∀ n es, 0 ≤ n →
     ∃ cliques history,
       find_max_cliques_traced (add_edges es (Graph_new n))
       = Some (cliques, add_edges es (Graph_new n), history) ∧
       Forall (λ f,
         (size (frame_R f) ≤ Z.to_nat n)%nat ∧
         ∀ v, v ∈ P_minus_N (add_edges es (Graph_new n)) (frame_P f)
                    (choose_pivot (add_edges es (Graph_new n)) (frame_P f) (frame_X f)) →
              (v ∉ frame_R f) ∧ size ({[v]} ∪ frame_R f) = S (size (frame_R f)))
         history).
Proof.
  split; [apply find_max_cliques_total|]. split.
  - intros fuel R P X st Hsize.
    destruct (bron_kerbosch_total fuel R P X st Hsize) as (st' & -> & _). eauto.
  - intros n es Hn. set (g := add_edges es (Graph_new n)).
    pose proof (built_symmetric n es Hn) as Hsym. fold g in Hsym.
    destruct (find_max_cliques_traced_total g) as (cliques & history & Hrun & _).
    exists cliques, history. split; [done|].
    pose proof (find_max_cliques_traced_invariant g Hsym _ _ _ Hrun) as Hall.
    eapply Forall_impl; [exact Hall|]. intros [R P X] Hinv.
    unfold frame_invariant in Hinv. simpl in *. split.
    + pose proof (search_invariant_size g R P X Hinv) as Hsz.
      unfold g in Hsz. by rewrite add_edges_num_vertices in Hsz.
    + intros v Hv.
      assert (HP : P ≠ ∅).
      { intros ->. apply elem_of_P_minus_N in Hv as [Hv _]. set_solver. }
      assert (HvR : v ∉ R).
      { eapply branch_vertex_fresh; [exact Hinv| |exact Hv].
        by apply choose_pivot_in. }
      split; [done|]. rewrite size_union by set_solver.
      rewrite size_singleton. done.
Qed.

Lemma search_terminates_witness :
  (∃ cliques, find_max_cliques (Graph_new 0) = Some (cliques, Graph_new 0)) ∧
  is_Some (bron_kerbosch 3 ∅ {[0; 1]} ∅ (add_edge (Graph_new 2) 0 1, [])).
Proof.
  split.
  - apply (proj1 search_terminates).
  - apply (proj1 (proj2 search_terminates)). vm_compute. lia.
Defined.

(** C5: [add_edge(u, v)] returns the graph unchanged when [u] or [v] lies
    outside [[0, n)]; when both lie inside, it keeps the vertex count,
    makes [u] and [v] adjacent in both directions and changes no other
    entry of the adjacency relation. *)
Theorem add_edge_spec g u v :
  well_formed g →
  (¬ (vertex g u ∧ vertex g v) → add_edge g u v = g) ∧
  (vertex g u → vertex g v →
     num_vertices (add_edge g u v) = num_vertices g ∧
     is_neighbor (add_edge g u v) u v = true ∧
     is_neighbor (add_edge g u v) v u = true ∧
     ∀ a b, ¬ (a = u ∧ b = v) → ¬ (a = v ∧ b = u) →
            is_neighbor (add_edge g u v) a b = is_neighbor g a b).
Proof.
  intros Hwf. split.
  - intros Hout. unfold add_edge, vertex in *. rewrite decide_False; [done|lia].
  - intros Hu Hv. unfold vertex in *. split; [apply add_edge_num_vertices|].
    rewrite !is_neighbor_add_edge by done.
    rewrite !decide_True by lia. split; [|split].
    + done.
    + done.
    + intros a b H1 H2. rewrite is_neighbor_add_edge by done.
      rewrite decide_True by lia. rewrite decide_False; [done|tauto].
Qed.

Lemma add_edge_spec_witness :
  add_edge (Graph_new 3) 0 3 = Graph_new 3 ∧
  is_neighbor (add_edge (Graph_new 3) 0 2) 0 2 = true ∧
  is_neighbor (add_edge (Graph_new 3) 0 2) 2 0 = true.
Proof.
  assert (Hwf : well_formed (Graph_new 3)) by (apply Graph_new_well_formed; lia).
  split.
  - apply (proj1 (add_edge_spec (Graph_new 3) 0 3 Hwf)).
    unfold vertex. simpl. lia.
  - destruct (proj2 (add_edge_spec (Graph_new 3) 0 2 Hwf)) as (_ & H1 & H2 & _);
      [unfold vertex; simpl; lia..|]. split; assumption.
Defined.

(** C6: constructing a graph with a negative [int] vertex count fails:
    the count reaches [std::vector] as a [size_t] of at least
    [2 ^ size_t_bits - 2 ^ 31], for which no storage is handed out, so the
    constructor throws and no graph object results. *)
Theorem Graph_ctor_negative (rt : Runtime) n :
  - 2 ^ 31 ≤ n < 0 → Graph_ctor n = Thrown.
Proof.
  intros Hn. unfold Graph_ctor, vector_fill.
  destruct (can_allocate_bits (to_size_t n)); [|done].
  destruct (can_allocate_rows (to_size_t n)) eqn:E; [|done].
  apply rows_limit in E. rewrite to_size_t_negative in E by done.
  pose proof size_t_bits_int as Hbits.
  assert (2 ^ 32 ≤ 2 ^ size_t_bits) by (apply Z.pow_le_mono_r; lia).
  lia.
Qed.

Lemma Graph_ctor_negative_witness : @Graph_ctor runtime64 (-1) = Thrown.
Proof. apply (Graph_ctor_negative runtime64 (-1)). lia. Defined.

(** C7: an activation with [P] and [X] both empty appends [R] to the
    result and returns; one with [P] empty and [X] non-empty returns the
    state as it got it; and the collection [find_max_cliques] returns is
    exactly the list of the [R] of the activations that had [P] and [X]
    both empty, so that nothing else is ever recorded. *)
Theorem recording_rule :
  (∀ fuel R st, bron_kerbosch (S fuel) R ∅ ∅ st = Some (st.1, st.2 ++ [R])) ∧
  (∀ fuel R X st, X ≠ ∅ → bron_kerbosch (S fuel) R ∅ X st = Some st) ∧
  (∀ g, ∃ cliques history,
     find_max_cliques_traced g = Some (cliques, g, history) ∧
     find_max_cliques g = Some (cliques, g) ∧
     cliques = recorded history).
Proof.
  split; [|split].
  - intros fuel R st. simpl. by rewrite bool_decide_eq_true_2.
  - intros fuel R X st HX. simpl.
    rewrite (bool_decide_eq_true_2 (∅ = ∅)) by done.
    by rewrite (bool_decide_eq_false_2 (X = ∅)).
  - intros g.
    destruct (find_max_cliques_traced_total g) as (cliques & history & Hrun & Hrun').
    exists cliques, history. split; [done|]. split; [done|].
    revert Hrun. unfold find_max_cliques_traced. case_decide.
    + destruct (bron_kerbosch_traced _ _ _ _ _) as [[[g1 cl1] tr1]|] eqn:E; [|done].
      intros [= -> -> ->].
      destruct (bron_kerbosch_traced_recorded _ _ _ _ _ _ _ E)
        as (calls & Htr & _ & Hcl).
      simpl in *. by subst.
    + by intros [= <- <-].
Qed.

Lemma recording_rule_witness :
  bron_kerbosch 1 {[7]} ∅ {[3]} (Graph_new 9, []) = Some (Graph_new 9, []).
Proof.
  apply (proj1 (proj2 recording_rule) 0%nat {[7]} {[3]} (Graph_new 9, [])).
  set_solver.
Defined.

(** The real run returns what the history of the traced run records. *)
Lemma find_max_cliques_traced_recorded g :
  ∃ cliques history,
    find_max_cliques_traced g = Some (cliques, g, history) ∧
    find_max_cliques g = Some (cliques, g) ∧
    cliques = recorded history.
Proof.
  destruct (find_max_cliques_traced_total g) as (cliques & history & Hrun & Hrun').
  exists cliques, history. split; [done|]. split; [done|].
  revert Hrun. unfold find_max_cliques_traced. case_decide.
  - destruct (bron_kerbosch_traced _ _ _ _ _) as [[[g1 cl1] tr1]|] eqn:E; [|done].
    intros [= -> -> ->].
    destruct (bron_kerbosch_traced_recorded _ _ _ _ _ _ _ E)
      as (calls & Htr & _ & Hcl).
    simpl in *. by subst.
  - by intros [= <- <-].
Qed.

(** The calls the loop of lines 81-97 makes, observed with a call that
    only records its arguments. *)
Lemma branch_loop_records_arguments g R vs :
  ∀ P X cl,
    branch_loop record_arguments R vs P X (g, cl)
    = Some (g, cl ++ concat (frame_sets <$> branch_frames g R vs P X)).
Proof.
  induction vs as [|v vs IH]; intros P X cl.
  - simpl. by rewrite app_nil_r.
  - cbn [branch_loop fst]. rewrite restrict_intersection.
    unfold record_arguments at 1. cbn [fst snd].
    rewrite IH. cbn [branch_frames fmap list_fmap concat frame_sets
                     frame_R frame_P frame_X].
    by rewrite <- app_assoc.
Qed.

(** The history of an activation is its own frame followed by the
    histories of the calls of [child_frames], in order. *)
Lemma branch_loop_traced_activation g call R vs :
  (∀ R' P' X' cl tr ts',
     call R' P' X' ((g, cl), tr) = Some ts' →
     ∃ cl' h, ts' = ((g, cl'), tr ++ h) ∧ activation g (mkFrame R' P' X') h) →
  ∀ P X cl tr ts',
    branch_loop_traced call R vs P X ((g, cl), tr) = Some ts' →
    ∃ cl' hs, ts' = ((g, cl'), tr ++ concat hs) ∧
              Forall2 (activation g) (branch_frames g R vs P X) hs.
Proof.
  intros Hcall. induction vs as [|v vs IH]; intros P X cl tr ts'.
  - simpl. intros [= <-]. exists cl, []. simpl. rewrite app_nil_r.
    split; [done|constructor].
  - cbn [branch_loop_traced fst]. rewrite restrict_intersection.
    destruct (call _ _ _ _) as [ts1|] eqn:E; [|done].
    destruct (Hcall _ _ _ _ _ _ E) as (cl1 & h1 & -> & Hact1).
    intros Hloop.
    destruct (IH _ _ _ _ _ Hloop) as (cl2 & hs2 & -> & Hact2).
    exists cl2, (h1 :: hs2). cbn [concat branch_frames].
    rewrite app_assoc. split; [done|]. by constructor.
Qed.

Lemma bron_kerbosch_traced_activation g fuel R P X cl tr ts' :
  bron_kerbosch_traced fuel R P X ((g, cl), tr) = Some ts' →
  ∃ cl' h, ts' = ((g, cl'), tr ++ h) ∧ activation g (mkFrame R P X) h.
Proof.
  revert R P X cl tr ts'.
  induction fuel as [|fuel IH]; intros R P X cl tr ts'; [done|].
  cbn [bron_kerbosch_traced fst snd].
  destruct (bool_decide (P = ∅)) eqn:EP; cbn [andb].
  - apply bool_decide_eq_true in EP.
    destruct (bool_decide (X = ∅)); intros [= <-];
      eexists _, [mkFrame R P X]; (split; [done|]); by apply activation_leaf.
  - apply bool_decide_eq_false in EP. intros Hloop.
    destruct (branch_loop_traced_activation g _ _ _ IH _ _ _ _ _ Hloop)
      as (cl' & hs & -> & Hact).
    exists cl', (mkFrame R P X :: concat hs). rewrite <- app_assoc.
    split; [done|]. by apply activation_node.
Qed.

(** C8: on a constructed graph, every activation with non-empty [P] picks
    a pivot [u] that is in [P], is not in [X] and has the largest degree
    among the vertices of [P] outside [X]; the calls it makes are exactly
    those for the vertices of [P], as [P] is on entry, that are not
    adjacent to [u], one call each, in increasing order. The calls are
    pinned three ways: the loop run with a call that records its arguments
    yields the argument triples of [branch_frames]; the history of the
    real run is the call tree [activation] rooted at [(∅, V, ∅)], in which
    the calls of a frame are [child_frames]; and the collection the real
    run returns is what that history records. *)
Theorem pivot_and_branching n es :
  0 ≤ n →
  let g := add_edges es (Graph_new n) in
  (∀ R vs P X cl,
     branch_loop record_arguments R vs P X (g, cl)
     = Some (g, cl ++ concat (frame_sets <$> branch_frames g R vs P X))) ∧
  ∃ cliques history,
    find_max_cliques_traced g = Some (cliques, g, history) ∧
    find_max_cliques g = Some (cliques, g) ∧
    cliques = recorded history ∧
    (0 < n → activation g (mkFrame ∅ (all_vertices g) ∅) history) ∧
    Forall (λ f,
      frame_P f ≠ ∅ →
      ∃ u, u = choose_pivot g (frame_P f) (frame_X f) ∧
        u ∈ frame_P f ∧ (u ∉ frame_X f) ∧
        (∀ v, v ∈ frame_P f → v ∉ frame_X f → degree g v ≤ degree g u) ∧
        (∀ v, v ∈ P_minus_N g (frame_P f) u ↔
              v ∈ frame_P f ∧ ¬ adjacent g u v) ∧
        child_frames g f
        = branch_frames g (frame_R f) (set_elems (P_minus_N g (frame_P f) u))
                        (frame_P f) (frame_X f) ∧
        ∀ fuel cl,
          bron_kerbosch (S fuel) (frame_R f) (frame_P f) (frame_X f) (g, cl)
          = branch_loop (bron_kerbosch fuel) (frame_R f)
              (set_elems (P_minus_N g (frame_P f) u))
              (frame_P f) (frame_X f) (g, cl))
      history.
Proof.
  intros Hn g. split; [apply branch_loop_records_arguments|].
  pose proof (built_symmetric n es Hn) as Hsym. fold g in Hsym.
  destruct (find_max_cliques_traced_recorded g)
    as (cliques & history & Hrun & Hrun' & Hrec).
  exists cliques, history. split; [done|]. split; [done|]. split; [done|]. split.
  - intros Hpos. revert Hrun. unfold find_max_cliques_traced.
    rewrite decide_True
      by (unfold g; rewrite add_edges_num_vertices; simpl; lia).
    destruct (bron_kerbosch_traced _ _ _ _ _) as [[[g1 cl1] tr1]|] eqn:E; [|done].
    intros [= -> -> ->].
    destruct (bron_kerbosch_traced_activation _ _ _ _ _ _ _ _ E)
      as (cl' & h & [= _ ->] & Hact).
    done.
  - pose proof (find_max_cliques_traced_invariant g Hsym _ _ _ Hrun) as Hall.
    eapply Forall_impl; [exact Hall|]. intros [R P X] Hinv HP.
    unfold frame_invariant in Hinv. simpl in *.
    destruct Hinv as (_ & _ & Hdisj & _).
    exists (choose_pivot g P X). split; [done|].
    pose proof (choose_pivot_in g P X HP) as Hu.
    split; [done|]. split; [set_solver|]. split; [|split; [|split]].
    + intros v. apply choose_pivot_max.
    + intros v. rewrite elem_of_P_minus_N. unfold adjacent.
      rewrite (Hsym v). destruct (is_neighbor g _ v); split; intros [? ?]; split;
        try done; congruence.
    + done.
    + intros fuel cl. simpl.
      rewrite (bool_decide_eq_false_2 (P = ∅)) by done. done.
Qed.

Lemma pivot_and_branching_witness :
  ∃ cliques history,
    find_max_cliques_traced (add_edges [(0, 1); (1, 2)] (Graph_new 3))
    = Some (cliques, add_edges [(0, 1); (1, 2)] (Graph_new 3), history) ∧
    activation (add_edges [(0, 1); (1, 2)] (Graph_new 3))
      (mkFrame ∅ (all_vertices (add_edges [(0, 1); (1, 2)] (Graph_new 3))) ∅)
      history ∧
    length history = 4%nat.
Proof.
  destruct (pivot_and_branching 3 [(0, 1); (1, 2)])
    as (_ & cliques & history & Hrun & _ & _ & Hact & _); [lia|].
  exists cliques, history. split; [exact Hrun|]. split; [apply Hact; lia|].
  vm_compute in Hrun. injection Hrun as _ <-. reflexivity.
Defined.

(** C9: on a constructed graph the sets handed to a recursive call are
    [R ∪ {v}], [P ∩ N(v)] and [X ∩ N(v)]; they satisfy the state invariant
    (every vertex of [P ∪ X] adjacent to every vertex of [R], [P] and [X]
    disjoint, [R] pairwise adjacent) whenever the caller's sets do, as do
    the caller's sets after [v] has moved from [P] to [X]; and the
    invariant holds at every activation of the search. *)
Theorem state_invariant_maintained n es :
  0 ≤ n →
  (∀ R P X v,
     state_invariant (add_edges es (Graph_new n)) R P X → v ∈ P →
     restrict (add_edges es (Graph_new n)) v P X
     = (P ∩ neighborhood (add_edges es (Graph_new n)) v,
        X ∩ neighborhood (add_edges es (Graph_new n)) v) ∧
     state_invariant (add_edges es (Graph_new n)) ({[v]} ∪ R)
        (P ∩ neighborhood (add_edges es (Graph_new n)) v)
        (X ∩ neighborhood (add_edges es (Graph_new n)) v) ∧
     state_invariant (add_edges es (Graph_new n)) R (P ∖ {[v]}) (X ∪ {[v]})) ∧
  ∃ cliques history,
    find_max_cliques_traced (add_edges es (Graph_new n))
    = Some (cliques, add_edges es (Graph_new n), history) ∧
    Forall (λ f, state_invariant (add_edges es (Graph_new n))
                   (frame_R f) (frame_P f) (frame_X f)) history.
Proof.
  intros Hn. set (g := add_edges es (Graph_new n)).
  pose proof (built_symmetric n es Hn) as Hsym. fold g in Hsym. split.
  - intros R P X v Hinv Hv. split; [apply restrict_intersection|]. split.
    + by apply state_invariant_child.
    + by apply state_invariant_next.
  - destruct (find_max_cliques_traced_total g) as (cliques & history & Hrun & _).
    exists cliques, history. split; [done|].
    pose proof (find_max_cliques_traced_invariant g Hsym _ _ _ Hrun) as Hall.
    eapply Forall_impl; [exact Hall|]. intros f Hf.
    by apply search_invariant_state.
Qed.

Lemma state_invariant_maintained_witness :
  ∃ cliques history,
    find_max_cliques_traced (add_edges [(0, 1); (1, 2); (2, 0)] (Graph_new 3))
    = Some (cliques, add_edges [(0, 1); (1, 2); (2, 0)] (Graph_new 3), history) ∧
    Forall (λ f, state_invariant (add_edges [(0, 1); (1, 2); (2, 0)] (Graph_new 3))
                   (frame_R f) (frame_P f) (frame_X f)) history.
Proof. apply (state_invariant_maintained 3 [(0, 1); (1, 2); (2, 0)]). lia. Defined.

(** C10: [find_max_cliques] does not modify the graph: the object after
    the call is the object before it, with the same vertex count and the
    same adjacency relation. *)
Theorem find_max_cliques_preserves_graph g cliques g' :
  find_max_cliques g = Some (cliques, g') →
  g' = g ∧
  num_vertices g' = num_vertices g ∧
  adj_matrix g' = adj_matrix g ∧
  ∀ u v, is_neighbor g' u v = is_neighbor g u v.
Proof.
  unfold find_max_cliques. intros Hrun.
  assert (g' = g) as ->; [|done].
  case_decide.
  - destruct (bron_kerbosch _ _ _ _ _) as [[g1 cl1]|] eqn:E; [|done].
    apply bron_kerbosch_graph in E. simpl in E. congruence.
  - congruence.
Qed.

Lemma find_max_cliques_preserves_graph_witness :
  ∃ cliques g',
    find_max_cliques (add_edges [(0, 1); (1, 2)] (Graph_new 3)) = Some (cliques, g') ∧
    g' = add_edges [(0, 1); (1, 2)] (Graph_new 3).
Proof.
  destruct (find_max_cliques (add_edges [(0, 1); (1, 2)] (Graph_new 3)))
    as [[cliques g']|] eqn:E; [|vm_compute in E; discriminate E].
  exists cliques, g'. split; [reflexivity|].
  apply (find_max_cliques_preserves_graph _ cliques g' E).
Defined.

(** * Further properties of the code *)

(** ** Neighbour queries *)

Lemma degree_fold g u l acc :
  fold_left (λ count i, if is_neighbor g u i then count + 1 else count) l acc
  = acc + Z.of_nat (length (filter (λ i, is_neighbor g u i = true) l)).
Proof.
  revert acc. induction l as [|x l IH]; intros acc; simpl; [lia|].
  rewrite IH, filter_cons. destruct (is_neighbor g u x).
  - rewrite decide_True by done. simpl. lia.
  - rewrite decide_False by done. lia.
Qed.

Lemma StronglySorted_filter {A} (R : relation A) (P : A → Prop)
    `{∀ x, Decision (P x)} l :
  StronglySorted R l → StronglySorted R (filter P l).
Proof.
  induction 1 as [|x l Hl IH Hx]; [constructor|].
  rewrite filter_cons. case_decide; [|done].
  constructor; [done|]. apply Forall_forall. intros y [_ Hy]%list_elem_of_filter.
  rewrite Forall_forall in Hx. by apply Hx.
Qed.

Lemma StronglySorted_seqZ m n : StronglySorted Z.lt (seqZ m n).
Proof.
  apply Sorted_StronglySorted; [apply _|].
  unfold seqZ. generalize (Z.to_nat n) as k. generalize 0%nat as s.
  intros s k. revert s. induction k as [|k IH]; intros s; simpl; constructor.
  - apply IH.
  - destruct k; simpl; constructor. lia.
Qed.

(** X1: [degree(u)] is the number of entries [get_neighbors(u)] returns,
    that is the number of vertices adjacent to [u]. *)
Theorem degree_counts_neighbors g u :
  degree g u = Z.of_nat (length (get_neighbors g u)) ∧
  degree g u = Z.of_nat (size (neighborhood g u)).
Proof.
  assert (Hdeg : degree g u = Z.of_nat (length (get_neighbors g u))).
  { unfold degree, get_neighbors. rewrite degree_fold. lia. }
  split; [done|]. rewrite Hdeg. f_equal. unfold neighborhood.
  rewrite size_list_to_set; [done|].
  unfold get_neighbors. apply NoDup_filter, NoDup_seqZ.
Qed.

(** X2: [get_neighbors(v)] lists, in strictly increasing order and so
    without repetition, exactly the indices [w] of [[0, n)] with
    [adj_matrix[v][w]] set. *)
Theorem get_neighbors_sorted g v :
  StronglySorted Z.lt (get_neighbors g v) ∧
  NoDup (get_neighbors g v) ∧
  ∀ w, w ∈ get_neighbors g v ↔ 0 ≤ w < num_vertices g ∧ is_neighbor g v w = true.
Proof.
  split; [|split].
  - unfold get_neighbors. apply StronglySorted_filter, StronglySorted_seqZ.
  - unfold get_neighbors. apply NoDup_filter, NoDup_seqZ.
  - intros w. apply elem_of_get_neighbors.
Qed.

(** X3: the count [degree] returns lies between 0 and the number of
    vertices, so the [int] counter of its loop cannot overflow. *)
Theorem degree_bounds g u : 0 ≤ degree g u ≤ Z.max 0 (num_vertices g).
Proof.
  destruct (degree_counts_neighbors g u) as [-> _].
  unfold get_neighbors.
  pose proof (length_filter (λ i, is_neighbor g u i = true) (seqZ 0 (num_vertices g))) as Hlen.
  rewrite length_seqZ in Hlen. lia.
Qed.

(** ** What construction and [add_edge] maintain *)

Lemma is_neighbor_in_range g a b :
  well_formed g → is_neighbor g a b = true → vertex g a ∧ vertex g b.
Proof.
  intros (Hn & Hlen & Hrows). unfold is_neighbor, vertex.
  unfold vec_at at 2. case_decide as Ha; [|unfold vec_at; by case_decide].
  destruct (adj_matrix g !! Z.to_nat a) as [row|] eqn:Erow; simpl;
    [|unfold vec_at; by case_decide].
  pose proof (lookup_lt_Some _ _ _ Erow) as Hlt.
  pose proof (proj1 (Forall_lookup _ _) Hrows _ _ Erow) as Hrow. simpl in Hrow.
  unfold vec_at. case_decide as Hb; [|done].
  destruct (row !! Z.to_nat b) as [x|] eqn:Ex; simpl; [|done].
  pose proof (lookup_lt_Some _ _ _ Ex) as Hlt'. intros _. lia.
Qed.

(** X4: every graph obtained from [Graph(n)], [n ≥ 0], by [add_edge] calls
    has [n] vertices, an [n × n] adjacency matrix, a symmetric adjacency
    relation, and relates only vertices of [[0, n)]. *)
Theorem constructed_graph_invariants n es :
  0 ≤ n →
  num_vertices (add_edges es (Graph_new n)) = n ∧
  well_formed (add_edges es (Graph_new n)) ∧
  symmetric (add_edges es (Graph_new n)) ∧
  ∀ a b, adjacent (add_edges es (Graph_new n)) a b → 0 ≤ a < n ∧ 0 ≤ b < n.
Proof.
  intros Hn.
  assert (Hwf : well_formed (add_edges es (Graph_new n)))
    by (by apply add_edges_well_formed, Graph_new_well_formed).
  assert (Hnum : num_vertices (add_edges es (Graph_new n)) = n)
    by (by rewrite add_edges_num_vertices).
  split; [done|]. split; [done|]. split; [by apply built_symmetric|].
  intros a b Hab. apply (is_neighbor_in_range _ _ _ Hwf) in Hab.
  unfold vertex in Hab. by rewrite Hnum in Hab.
Qed.

Lemma constructed_graph_invariants_witness :
  num_vertices (add_edges [(0, 1); (5, 1); (1, 1)] (Graph_new 3)) = 3 ∧
  symmetric (add_edges [(0, 1); (5, 1); (1, 1)] (Graph_new 3)).
Proof.
  destruct (constructed_graph_invariants 3 [(0, 1); (5, 1); (1, 1)])
    as (H1 & _ & H2 & _); [lia|]. split; assumption.
Defined.

(** ** The graph a sequence of [add_edge] calls builds *)

Lemma is_neighbor_lookup g i j row x :
  adj_matrix g !! i = Some row → row !! j = Some x →
  is_neighbor g (Z.of_nat i) (Z.of_nat j) = x.
Proof.
  intros Hrow Hx. unfold is_neighbor, vec_at.
  rewrite !decide_True by lia. rewrite !Nat2Z.id, Hrow. simpl. by rewrite Hx.
Qed.

Lemma graph_ext g1 g2 :
  well_formed g1 → well_formed g2 →
  num_vertices g1 = num_vertices g2 →
  (∀ a b, is_neighbor g1 a b = is_neighbor g2 a b) →
  g1 = g2.
Proof.
  intros (Hn1 & Hlen1 & Hrows1) (Hn2 & Hlen2 & Hrows2) Hnum Hadj.
  destruct g1 as [n1 m1], g2 as [n2 m2]. simpl in *. subst n2. f_equal.
  apply list_eq. intros i.
  destruct (m1 !! i) as [r1|] eqn:E1.
  - pose proof (lookup_lt_Some _ _ _ E1) as Hi.
    destruct (lookup_lt_is_Some_2 m2 i) as [r2 E2]; [lia|]. rewrite E2. f_equal.
    pose proof (proj1 (Forall_lookup _ _) Hrows1 _ _ E1) as Hr1.
    pose proof (proj1 (Forall_lookup _ _) Hrows2 _ _ E2) as Hr2. simpl in *.
    apply list_eq. intros j.
    destruct (r1 !! j) as [x1|] eqn:Ex1.
    + pose proof (lookup_lt_Some _ _ _ Ex1) as Hj.
      destruct (lookup_lt_is_Some_2 r2 j) as [x2 Ex2]; [lia|]. rewrite Ex2. f_equal.
      rewrite <- (is_neighbor_lookup (mkGraph n1 m1) i j r1 x1 E1 Ex1).
      rewrite <- (is_neighbor_lookup (mkGraph n1 m2) i j r2 x2 E2 Ex2).
      apply Hadj.
    + symmetry. apply lookup_ge_None_2. apply lookup_ge_None_1 in Ex1. lia.
  - symmetry. apply lookup_ge_None_2. apply lookup_ge_None_1 in E1. lia.
Qed.

(** X5: on a graph with an [n × n] matrix, repeating an [add_edge] call
    changes nothing, the order of the two endpoints does not matter, and
    two [add_edge] calls can be exchanged: each pair of objects is equal. *)
Theorem add_edge_algebra g u v u' v' :
  well_formed g →
  add_edge (add_edge g u v) u v = add_edge g u v ∧
  add_edge g v u = add_edge g u v ∧
  add_edge (add_edge g u v) u' v' = add_edge (add_edge g u' v') u v.
Proof.
  intros Hwf.
  assert (Hwf1 : ∀ a b, well_formed (add_edge g a b))
    by (intros; by apply add_edge_well_formed).
  split; [|split]; apply graph_ext;
    try (by repeat apply add_edge_well_formed);
    try (by rewrite !add_edge_num_vertices);
    intros a b; rewrite !is_neighbor_add_edge by auto;
    rewrite ?add_edge_num_vertices;
    repeat case_decide; try done; exfalso; intuition lia.
Qed.

Lemma add_edge_algebra_witness :
  add_edge (add_edge (Graph_new 3) 0 2) 0 2 = add_edge (Graph_new 3) 0 2 ∧
  add_edge (Graph_new 3) 2 0 = add_edge (Graph_new 3) 0 2.
Proof.
  destruct (add_edge_algebra (Graph_new 3) 0 2 1 2) as (H1 & H2 & _);
    [apply Graph_new_well_formed; lia|]. split; assumption.
Defined.

(** X6: the graph built by a sequence of [add_edge] calls depends only on
    which calls were made, not on their order. *)
Theorem add_edges_permutation es es' g :
  well_formed g → es ≡ₚ es' → add_edges es g = add_edges es' g.
Proof.
  intros Hwf Hperm. revert g Hwf.
  induction Hperm as [|e es es' _ IH|e1 e2 es|es1 es2 es3 _ IH1 _ IH2]; intros g Hwf.
  - done.
  - rewrite !add_edges_cons. by apply IH, add_edge_well_formed.
  - rewrite !add_edges_cons. f_equal.
    by destruct (add_edge_algebra g e2.1 e2.2 e1.1 e1.2 Hwf) as (_ & _ & ->).
  - by rewrite IH1, IH2.
Qed.

Lemma add_edges_permutation_witness :
  add_edges [(0, 1); (1, 2)] (Graph_new 3) = add_edges [(1, 2); (0, 1)] (Graph_new 3).
Proof.
  apply (add_edges_permutation [(0, 1); (1, 2)] [(1, 2); (0, 1)] (Graph_new 3)).
  - apply Graph_new_well_formed. lia.
  - apply Permutation_swap.
Defined.

Lemma is_neighbor_add_edges es g a b :
  well_formed g →
  is_neighbor (add_edges es g) a b = true ↔
  is_neighbor g a b = true ∨
  ∃ e, e ∈ es ∧ vertex g e.1 ∧ vertex g e.2 ∧
       ((a = e.1 ∧ b = e.2) ∨ (a = e.2 ∧ b = e.1)).
Proof.
  revert g. induction es as [|e es IH]; intros g Hwf.
  - simpl. split; [by left|]. intros [?|(e & He & _)]; [done|].
    by apply elem_of_nil in He.
  - rewrite add_edges_cons, IH by (by apply add_edge_well_formed).
    rewrite is_neighbor_add_edge by done. unfold vertex.
    rewrite add_edge_num_vertices. split.
    + intros [Hadj|(e' & He' & Hrange)].
      * repeat case_decide; [|by left|by left].
        right. exists e. split; [left|]. unfold vertex. intuition lia.
      * right. exists e'. split; [by right|done].
    + intros [Hadj|(e' & [->|He']%elem_of_cons & Hu & Hv & Hab)].
      * left. rewrite Hadj. by repeat case_decide.
      * left. rewrite decide_True by lia. rewrite decide_True; [done|tauto].
      * right. exists e'. done.
Qed.

(** X7: in the graph built from [Graph(n)] by a sequence of [add_edge]
    calls, [a] and [b] are adjacent exactly when some call named them, in
    either order, with both endpoints in [[0, n)]. *)
Theorem constructed_graph_edges n es a b :
  0 ≤ n →
  adjacent (add_edges es (Graph_new n)) a b ↔
  ∃ u v, (u, v) ∈ es ∧ 0 ≤ u < n ∧ 0 ≤ v < n ∧
         ((a = u ∧ b = v) ∨ (a = v ∧ b = u)).
Proof.
  intros Hn. unfold adjacent.
  rewrite is_neighbor_add_edges by (by apply Graph_new_well_formed).
  rewrite is_neighbor_Graph_new. unfold vertex. simpl. split.
  - intros [?|([u v] & He & Hr)]; [done|]. exists u, v. done.
  - intros (u & v & He & Hr). right. exists (u, v). done.
Qed.

Lemma constructed_graph_edges_witness :
  adjacent (add_edges [(0, 1); (1, 2)] (Graph_new 3)) 2 1.
Proof.
  apply (constructed_graph_edges 3 [(0, 1); (1, 2)] 2 1); [lia|].
  exists 1, 2. split; [set_solver|]. lia.
Defined.

(** X8: [Graph(n)] with [0 ≤ n] either throws (no storage) or yields the
    object with [n] vertices, an [n × n] matrix and no adjacent pair. *)
Theorem Graph_ctor_nonnegative (rt : Runtime) n g :
  0 ≤ n < 2 ^ 31 →
  Graph_ctor n = Constructed g →
  g = Graph_new n ∧ num_vertices g = n ∧ well_formed g ∧
  ∀ a b, is_neighbor g a b = false.
Proof.
  intros Hn. unfold Graph_ctor, vector_fill.
  rewrite to_size_t_nonnegative by done.
  destruct (can_allocate_bits n); [|done].
  destruct (can_allocate_rows n); [|done].
  intros [= <-]. fold (Graph_new n).
  split; [done|]. split; [done|]. split; [apply Graph_new_well_formed; lia|].
  apply is_neighbor_Graph_new.
Qed.

Lemma Graph_ctor_nonnegative_witness :
  @Graph_ctor runtime64 2 = Constructed (Graph_new 2) ∧ well_formed (Graph_new 2).
Proof.
  assert (Hrun : @Graph_ctor runtime64 2 = Constructed (Graph_new 2))
    by (vm_compute; reflexivity).
  split; [exact Hrun|].
  destruct (Graph_ctor_nonnegative runtime64 2 (Graph_new 2)) as (_ & _ & H & _).
  - lia.
  - exact Hrun.
  - exact H.
Defined.

(** ** The candidate set shrinks *)

(** X9: whatever the matrix holds (symmetric or not, self-loops or not),
    the candidate set handed to a recursive call is a subset of the
    caller's [P] on entry that no longer contains the pivot; it is this
    that bounds the recursion. *)
Theorem child_candidates_shrink g P0 P X u v :
  u ∈ P0 → P ⊆ P0 → v ∈ P_minus_N g P0 u →
  (restrict g v P X).1 ⊆ P0 ∖ {[u]} ∧
  (size (restrict g v P X).1 < size P0)%nat.
Proof.
  intros Hu Hsub Hv. split; [|by eapply restrict_loses_pivot].
  apply elem_of_P_minus_N in Hv as [_ Hv].
  intros w (Hw & _ & Hadj)%elem_of_restrict_P.
  apply elem_of_difference. split; [by apply Hsub|].
  intros ->%elem_of_singleton. unfold adjacent in Hadj. congruence.
Qed.

Lemma child_candidates_shrink_witness :
  Nat.lt (size (restrict (add_edge (Graph_new 3) 0 1) 2 {[0; 1; 2]} ∅).1)
         (size ({[0; 1; 2]} : gset Z)).
Proof.
  destruct (child_candidates_shrink (add_edge (Graph_new 3) 0 1)
              {[0; 1; 2]} {[0; 1; 2]} ∅ 0 2) as [_ H].
  - set_solver.
  - done.
  - apply elem_of_P_minus_N. split; [set_solver|]. vm_compute. reflexivity.
  - exact H.
Defined.

(** ** The result vector only grows *)

(** X10: an activation of [bron_kerbosch], whatever its arguments, leaves
    the object alone and only appends to [cliques]: what the vector held
    before the call is a prefix of what it holds after. *)
Theorem bron_kerbosch_appends fuel R P X st st' :
  bron_kerbosch fuel R P X st = Some st' →
  st'.1 = st.1 ∧ ∃ out, st'.2 = st.2 ++ out.
Proof.
  intros Hrun.
  pose proof (bron_kerbosch_traced_erase fuel R P X st []) as Herase.
  rewrite Hrun in Herase.
  destruct (bron_kerbosch_traced fuel R P X (st, [])) as [[st1 tr1]|] eqn:E; [|done].
  simpl in Herase. injection Herase as ->.
  destruct (bron_kerbosch_traced_recorded _ _ _ _ _ _ _ E) as (calls & _ & Hg & Hcl).
  simpl in *. eauto.
Qed.

Lemma bron_kerbosch_appends_witness :
  ∃ out, [{[5]}; {[0]}] = [{[5]}] ++ out :> list (gset Z).
Proof.
  apply (bron_kerbosch_appends 2 ∅ {[0]} ∅ (Graph_new 1, [{[5]}])
           (Graph_new 1, [{[5]}; {[0]}])).
  vm_compute. reflexivity.
Defined.

(** ** Memory safety of the matrix reads *)

(** X11: on a constructed graph every vertex the search ever holds in
    [R], [P] or [X] is an index of [[0, n)], so every [adj_matrix] read of
    [is_neighbor], [degree] and [get_neighbors] is inside the matrix. *)
Theorem search_sets_in_range n es :
  0 ≤ n →
  ∃ cliques history,
    find_max_cliques_traced (add_edges es (Graph_new n))
    = Some (cliques, add_edges es (Graph_new n), history) ∧
    Forall (λ f, ∀ v, v ∈ frame_R f ∪ frame_P f ∪ frame_X f → 0 ≤ v < n) history.
Proof.
  intros Hn. set (g := add_edges es (Graph_new n)).
  pose proof (built_symmetric n es Hn) as Hsym. fold g in Hsym.
  destruct (find_max_cliques_traced_total g) as (cliques & history & Hrun & _).
  exists cliques, history. split; [done|].
  pose proof (find_max_cliques_traced_invariant g Hsym _ _ _ Hrun) as Hall.
  eapply Forall_impl; [exact Hall|]. intros [R P X] (HR & _ & _ & Hcn) v Hv.
  simpl in *.
  assert (Hvert : vertex g v).
  { apply elem_of_union in Hv as [[Hv|Hv]%elem_of_union|Hv].
    - by apply HR.
    - apply (Hcn v). by apply elem_of_union_l.
    - apply (Hcn v). by apply elem_of_union_r. }
  unfold vertex, g in Hvert. by rewrite add_edges_num_vertices in Hvert.
Qed.

Lemma search_sets_in_range_witness :
  ∃ cliques history,
    find_max_cliques_traced (add_edges [(0, 1)] (Graph_new 2))
    = Some (cliques, add_edges [(0, 1)] (Graph_new 2), history) ∧
    Forall (λ f, ∀ v, v ∈ frame_R f ∪ frame_P f ∪ frame_X f → 0 ≤ v < 2) history.
Proof. apply (search_sets_in_range 2 [(0, 1)]). lia. Defined.

(** ** No clique is reported twice *)

Section distinct.
Variable g : Graph.
Hypothesis Hsym : symmetric g.

Lemma branch_loop_distinct call R vs :
  (∀ R' P' X' cl st',
     search_invariant g R' P' X' → call R' P' X' (g, cl) = Some st' →
     ∃ out, st' = (g, cl ++ out) ∧ NoDup out ∧
            ∀ C, C ∈ out → R' ⊆ C ∧ C ⊆ R' ∪ P') →
  ∀ P X cl st',
    search_invariant g R P X → NoDup vs → (∀ v, v ∈ vs → v ∈ P ∧ v ∉ R) →
    branch_loop call R vs P X (g, cl) = Some st' →
    ∃ out, st' = (g, cl ++ out) ∧ NoDup out ∧
           ∀ C, C ∈ out → R ⊆ C ∧ C ⊆ R ∪ P.
Proof using Hsym.
  intros Hcall. induction vs as [|v vs IH]; intros P X cl st' Hinv Hnd Hvs; simpl.
  - intros [= <-]. exists []. rewrite app_nil_r. split; [done|].
    split; [constructor|]. intros C HC. by apply elem_of_nil in HC.
  - apply NoDup_cons in Hnd as [Hv_vs Hnd].
    destruct (Hvs v) as [Hv HvR]; [by left|].
    pose proof (search_invariant_child g Hsym R P X v Hinv Hv) as Hchild.
    pose proof (elem_of_restrict_P g v P X) as HnewP.
    destruct (restrict g v P X) as [new_P new_X]. simpl in Hchild, HnewP.
    destruct (call _ _ _ _) as [st1|] eqn:Ecall; [|done].
    destruct (Hcall _ _ _ _ _ Hchild Ecall) as (out1 & -> & Hnd1 & Hin1).
    intros Hloop.
    destruct (IH (P ∖ {[v]}) (X ∪ {[v]}) (cl ++ out1) st')
      as (out2 & -> & Hnd2 & Hin2).
    { by apply search_invariant_next. }
    { done. }
    { intros w Hw. destruct (Hvs w) as [HwP HwR]; [by right|].
      split; [|done]. apply elem_of_difference. split; [done|].
      intros ->%elem_of_singleton. done. }
    { done. }
    exists (out1 ++ out2). rewrite app_assoc. split; [done|]. split.
    + apply NoDup_app. split; [done|]. split; [|done].
      intros C HC1 HC2. destruct (Hin1 C HC1) as [Hsub1 _].
      destruct (Hin2 C HC2) as [_ Hsup2].
      assert (HvC : v ∈ C) by (apply Hsub1, elem_of_union_l; by apply elem_of_singleton).
      apply Hsup2 in HvC. apply elem_of_union in HvC as [?|HvC]; [done|].
      apply elem_of_difference in HvC as [_ HvC]. apply HvC. by apply elem_of_singleton.
    + intros C [HC|HC]%elem_of_app.
      * destruct (Hin1 C HC) as [Hsub Hsup]. split.
        -- intros r Hr. apply Hsub. by apply elem_of_union_r.
        -- intros c Hc. apply Hsup in Hc.
           apply elem_of_union in Hc as [[->%elem_of_singleton|Hc]%elem_of_union|Hc].
           ++ by apply elem_of_union_r.
           ++ by apply elem_of_union_l.
           ++ apply elem_of_union_r. by apply HnewP in Hc as [? _].
      * destruct (Hin2 C HC) as [Hsub Hsup]. split; [done|].
        intros c Hc. apply Hsup in Hc.
        apply elem_of_union in Hc as [Hc|[Hc _]%elem_of_difference].
        -- by apply elem_of_union_l.
        -- by apply elem_of_union_r.
Qed.

Lemma bron_kerbosch_distinct fuel R P X cl st' :
  search_invariant g R P X →
  bron_kerbosch fuel R P X (g, cl) = Some st' →
  ∃ out, st' = (g, cl ++ out) ∧ NoDup out ∧
         ∀ C, C ∈ out → R ⊆ C ∧ C ⊆ R ∪ P.
Proof using Hsym.
  revert R P X cl st'.
  induction fuel as [|fuel IH]; intros R P X cl st' Hinv; simpl; [done|].
  destruct (bool_decide (P = ∅)) eqn:EP; simpl.
  - destruct (bool_decide (X = ∅)); intros [= <-].
    + exists [R]. split; [done|]. split; [apply NoDup_singleton|].
      intros C ->%list_elem_of_singleton. split; [done|]. apply union_subseteq_l.
    + exists []. rewrite app_nil_r. split; [done|]. split; [constructor|].
      intros C HC. by apply elem_of_nil in HC.
  - apply bool_decide_eq_false in EP.
    pose proof (choose_pivot_in g P X EP) as Hu.
    apply (branch_loop_distinct (bron_kerbosch fuel) R
             (set_elems (P_minus_N g P (choose_pivot g P X))) IH P X cl st' Hinv).
    + apply NoDup_set_elems.
    + intros v Hv%elem_of_set_elems. split.
      * by apply elem_of_P_minus_N in Hv as [? _].
      * by eapply (branch_vertex_fresh g R P X).
Qed.
End distinct.

(** X12: on every constructed graph, self-loops included,
    [find_max_cliques] reports no set twice and never reports the empty
    set. *)
Theorem find_max_cliques_distinct n es :
  0 ≤ n →
  ∃ cliques,
    find_max_cliques (add_edges es (Graph_new n))
    = Some (cliques, add_edges es (Graph_new n)) ∧
    NoDup cliques ∧ ∀ C, C ∈ cliques → C ≠ ∅.
Proof.
  intros Hn. set (g := add_edges es (Graph_new n)).
  pose proof (built_symmetric n es Hn) as Hsym. fold g in Hsym.
  destruct (find_max_cliques_spec g Hsym) as (cliques & Hrun & Hs & _).
  exists cliques. split; [done|]. split.
  - revert Hrun. unfold find_max_cliques. case_decide.
    + destruct (bron_kerbosch _ _ _ _ _) as [[g' cl]|] eqn:E; [|done].
      intros [= -> ->].
      destruct (bron_kerbosch_distinct g Hsym _ _ _ _ _ _
                  (search_invariant_init g) E) as (out & [= ->] & Hnd & _).
      done.
    + intros [= <-]. constructor.
  - intros C HC. by destruct (Hs C HC) as [(? & _) _].
Qed.

Lemma find_max_cliques_distinct_witness :
  ∃ cliques,
    find_max_cliques (add_edges [(0, 0); (0, 1); (1, 2)] (Graph_new 3))
    = Some (cliques, add_edges [(0, 0); (0, 1); (1, 2)] (Graph_new 3)) ∧
    NoDup cliques ∧ ∀ C, C ∈ cliques → C ≠ ∅.
Proof. apply (find_max_cliques_distinct 3). lia. Defined.

(** ** Which vertex becomes the pivot *)

Lemma pivot_fold_first g X l u0 :
  StronglySorted Z.le l → (∀ v, v ∈ l → u0 ≤ v) → (∀ v, v ∈ l → v ∉ X) →
  (fold_left (pivot_step g X) l u0 = u0 ∨
   degree g u0 < degree g (fold_left (pivot_step g X) l u0)) ∧
  u0 ≤ fold_left (pivot_step g X) l u0 ∧
  ∀ v, v ∈ l → degree g v = degree g (fold_left (pivot_step g X) l u0) →
       fold_left (pivot_step g X) l u0 ≤ v.
Proof.
  intros Hsorted. revert u0.
  induction Hsorted as [|x l Hl IH Hx]; intros u0 Hlow HX; simpl.
  - split; [by left|]. split; [lia|]. intros v Hv. by apply elem_of_nil in Hv.
  - rewrite Forall_forall in Hx.
    assert (Hu0x : u0 ≤ x) by (apply Hlow; by left).
    assert (HxX : x ∉ X) by (apply HX; by left).
    assert (Hstep : (pivot_step g X u0 x = x ∧ degree g u0 < degree g x) ∨
                    (pivot_step g X u0 x = u0 ∧ degree g x ≤ degree g u0)).
    { unfold pivot_step. rewrite decide_False by done. case_decide; [left|right]; lia. }
    destruct (IH (pivot_step g X u0 x)) as (Hwho & Hge & Hfirst).
    { intros v Hv. specialize (Hx v Hv). specialize (Hlow v (list_elem_of_further _ _ _ Hv)).
      destruct Hstep as [[-> _]|[-> _]]; lia. }
    { intros v Hv. apply HX. by right. }
    set (u := fold_left (pivot_step g X) l (pivot_step g X u0 x)) in *.
    split; [|split].
    + destruct Hstep as [[E ?]|[E ?]]; rewrite E in Hwho; destruct Hwho as [->|?];
        (by left) || (right; lia).
    + destruct Hstep as [[E ?]|[E ?]]; rewrite E in Hge; lia.
    + intros v [->|Hv]%elem_of_cons Hdeg; [|by apply Hfirst].
      destruct Hstep as [[E ?]|[E ?]]; rewrite E in Hwho; destruct Hwho as [->|?]; lia.
Qed.

(** X13: when [P] is non-empty and disjoint from [X], the pivot is the
    smallest vertex of [P] among those of largest degree: ties are
    broken towards the lower index. *)
Theorem choose_pivot_first g P X :
  P ≠ ∅ → P ## X →
  choose_pivot g P X ∈ P ∧
  ∀ v, v ∈ P →
    degree g v ≤ degree g (choose_pivot g P X) ∧
    (degree g v = degree g (choose_pivot g P X) → choose_pivot g P X ≤ v).
Proof.
  intros HP Hdisj. split; [by apply choose_pivot_in|].
  intros v Hv. split; [apply choose_pivot_max; [done|set_solver]|].
  unfold choose_pivot.
  pose proof (Sorted_set_elems P) as Hsorted.
  apply (Sorted_StronglySorted Z.le) in Hsorted.
  destruct (set_elems P) as [|x0 l] eqn:E; [by apply set_elems_nil in E|].
  cbn [hd].
  destruct (pivot_fold_first g X (x0 :: l) x0 Hsorted) as (_ & _ & Hfirst).
  - pose proof Hsorted as Hs. apply StronglySorted_inv in Hs as [_ Hs].
    rewrite Forall_forall in Hs.
    intros w [->|Hw]%elem_of_cons; [lia|by apply Hs].
  - intros w Hw. rewrite <- E in Hw. apply elem_of_set_elems in Hw. set_solver.
  - apply Hfirst. rewrite <- E. by apply elem_of_set_elems.
Qed.

Lemma choose_pivot_first_witness :
  choose_pivot (add_edges [(0, 1); (1, 2); (2, 3)] (Graph_new 4)) {[0; 1; 2; 3]} ∅ ≤ 2.
Proof.
  destruct (choose_pivot_first (add_edges [(0, 1); (1, 2); (2, 3)] (Graph_new 4))
              {[0; 1; 2; 3]} ∅) as [_ H]; [set_solver|set_solver|].
  destruct (H 2) as [_ H2]; [set_solver|].
  apply H2. vm_compute. reflexivity.
Defined.

(** ** The repository's tests *)

(** X14: none of the assertions of [test_find_max_cliques] fails: in each
    of its fifteen cases the sorted result of [find_max_cliques] equals
    the sorted expected vector. *)
Theorem test_find_max_cliques_passes : test_find_max_cliques = true.
Proof. vm_compute. reflexivity. Qed.
